(** * Verified retrieval from untrusted gateways: a model of the Go sources

    The development follows the packages of the repository:
    - [Go]            : errors and fallible results as the Go code returns them;
    - [cid], [blocks] : content identifiers and blocks;
    - [http]          : the part of net/http and io the code calls;
    - [gateway]       : the proxy block store (proxyBlockstore);
    - [verifiedfetch] : the example fetcher (newFetcher, httpRequest,
                        resolvePath, carToFileStream, fetch, run);
    - [notifications] : the bitswap notification bus (impl.Subscribe);
    - [files]         : ReaderFile. *)

From Stdlib Require Import ZArith Lia Ascii String.
From stdpp Require Import base option list strings gmap.

#[local] Open Scope string_scope.

(** Byte slices ([]byte) are modelled as strings of 8-bit characters, which is
    what Go's [string(b)] conversion yields. *)
Definition bytes := string.

(* ===================================================================== *)
(** ** Go errors and results *)
(* ===================================================================== *)
Module Go.

(** An [error] value.  The three sentinel values the sources compare against
    or return ([io.EOF], [blocks.ErrWrongHash], [util.ErrNotImplemented]) are
    constructors of their own; [errorString] is [errors.New] or a [fmt.Errorf]
    without [%w]; [wrapError] is a [fmt.Errorf] with [%w], keeping the cause. *)
Inductive error : Type :=
| EOF
| ErrWrongHash
| ErrNotImplemented
| errorString (msg : string)
| wrapError (msg : string) (cause : error).

(** [err.Error()] *)
Definition Error (e : error) : string :=
  match e with
  | EOF => "EOF"
  | ErrWrongHash => "data did not match given hash"
  | ErrNotImplemented => "not implemented"
  | errorString msg => msg
  | wrapError msg _ => msg
  end.

(** [fmt.Errorf(prefix + "%w", cause)] *)
Definition Errorf_w (prefix : string) (cause : error) : error :=
  wrapError (prefix +:+ Error cause) cause.

(** [fmt.Errorf(prefix + "%s", cause)]: the cause is formatted, not kept. *)
Definition Errorf_s (prefix : string) (cause : error) : error :=
  errorString (prefix +:+ Error cause).

#[global] Instance error_eq_dec : EqDecision error.
Proof. solve_decision. Defined.

(** A Go function returning [(T, error)] where exactly one of the two is
    meaningful. *)
Inductive result (A : Type) : Type :=
| Ok (a : A)
| Err (e : error).
Arguments Ok {A} a.
Arguments Err {A} e.

End Go.
Export Go.

(** [s] occurs in [t]: used to say that an error message carries a text. *)
Definition carries (t s : string) : Prop :=
  exists pre post, t = pre +:+ s +:+ post.

(* ===================================================================== *)
(** ** Content identifiers and blocks *)
(* ===================================================================== *)
Module cid.

(** Modelled from the spec: the content identifier type (go-cid's [Cid],
    [Prefix] and [Prefix.Sum]) is not part of the sources.  The spec describes
    a CID as "a self-describing, versioned content address carrying a
    hash-function identifier and a hash digest", and verification as computing
    "the digest using the hash function named in that block's CID" and
    comparing it "to the embedded digest". *)
Record Cid : Type := mkCid {
  version : N;
  codec : N;
  hashFunction : N;
  digest : bytes
}.

#[global] Instance Cid_eq_dec : EqDecision Cid.
Proof. solve_decision. Defined.

#[global] Instance Cid_countable : Countable Cid.
Proof.
  refine (inj_countable'
    (fun c => (version c, codec c, hashFunction c, digest c))
    (fun t => let '(v, k, h, d) := t in mkCid v k h d) _).
  by intros [].
Defined.

(** [c.Prefix()]: everything of the CID but the digest. *)
Record Prefix : Type := mkPrefix {
  Version : N;
  Codec : N;
  MhType : N
}.

Definition Cid_Prefix (c : Cid) : Prefix :=
  {| Version := version c; Codec := codec c; MhType := hashFunction c |}.

(** The table of hash functions, by identifier; [None] for an identifier that
    names no known function. *)
Definition Hasher := N -> bytes -> option bytes.

(** [p.Sum(data)]: the CID of [data] under the prefix [p]. *)
Definition Sum (hash : Hasher) (p : Prefix) (data : bytes) : result Cid :=
  match hash (MhType p) data with
  | None => Err (errorString "invalid cid: unknown hash function")
  | Some d => Ok (mkCid (Version p) (Codec p) (MhType p) d)
  end.

(** [a.Equals(b)] *)
Definition Equals (a b : Cid) : bool := bool_decide (a = b).

End cid.
Export cid.

Module blocks.

(** go-block-format's [BasicBlock]: a CID and the raw bytes. *)
Record Block : Type := mkBlock {
  Block_Cid : Cid;
  RawData : bytes
}.

(** [blocks.NewBlockWithCid(data, c)].  With the package-level debug flag
    set, the constructor re-checks the hash; it returns [(block, nil)] or
    [(nil, err)]. *)
Definition NewBlockWithCid (hash : Hasher) (debug : bool) (data : bytes) (c : Cid)
  : option Block * option error :=
  if debug then
    match Sum hash (Cid_Prefix c) data with
    | Err e => (None, Some e)
    | Ok chkc =>
        if negb (Equals chkc c) then (None, Some ErrWrongHash)
        else (Some (mkBlock c data), None)
    end
  else (Some (mkBlock c data), None).

End blocks.
Export blocks.

(* ===================================================================== *)
(** ** The HTTP calls the code makes *)
(* ===================================================================== *)
Module http.

Record Request : Type := mkRequest {
  Method : string;
  URL : string;
  Header : gmap string string
}.

(** A response body ([io.ReadCloser]): the bytes it holds, and the error a
    read of it runs into, if any. *)
Record ReadCloser : Type := mkBody {
  content : bytes;
  readFault : option error
}.

Record Response : Type := mkResponse {
  StatusCode : Z;
  Status : string;
  Body : ReadCloser
}.

Definition StatusOK : Z := 200.

(** [io.ReadAll(r)] *)
Definition ReadAll (r : ReadCloser) : result bytes :=
  match readFault r with
  | Some e => Err e
  | None => Ok (content r)
  end.

(** [req.Header.Set(key, value)] *)
Definition Header_Set (req : Request) (key value : string) : Request :=
  {| Method := Method req; URL := URL req;
     Header := <[key := value]> (Header req) |}.

(** The network as the code sees it during one operation: whether a URL
    parses, and what the client's [Do] answers to a request. *)
Record Network : Type := mkNetwork {
  urlError : string -> option error;
  Do : Request -> result Response
}.

(** [http.NewRequestWithContext(ctx, method, url, nil)] *)
Definition NewRequestWithContext (net : Network) (method url : string)
  : result Request :=
  match urlError net url with
  | Some e => Err e
  | None => Ok (mkRequest method url ∅)
  end.

Definition MethodGet : string := "GET".

End http.
Export http.

(* ===================================================================== *)
(** ** package gateway: the proxy block store *)
(* ===================================================================== *)
Module gateway.

(** [time.Second], in nanoseconds, and the per-request timeout. *)
Definition Second : Z := 1000000000.
Definition getBlockTimeout : Z := Second * 60.

(** The resolver cache a caller may hand to the constructor. *)
Inductive CachedDNS : Type := mkCachedDNS (name : string).

Record Transport : Type := mkTransport {
  MaxIdleConns : Z;
  MaxConnsPerHost : Z;
  MaxIdleConnsPerHost : Z;
  IdleConnTimeout : Z;
  ForceAttemptHTTP2 : bool;
  DialContext : option CachedDNS
}.

Record Client : Type := mkClient {
  Timeout : Z;
  Transport_ : Transport
}.

(** State of a [*rand.Rand]. *)
Definition Rand := Z.

(** What the proxy store takes from outside: the hash functions, the debug
    flag of the block package, the network, the clock, the random generator
    ([Intn r n] draws an index below [n] and advances the generator), the
    text encoding of CIDs and the [%q] formatting of a string. *)
Record Env : Type := mkEnv {
  hash : Hasher;
  debug : bool;
  net : Network;
  now : Z;
  Intn : Rand -> nat -> nat * Rand;
  Cid_String : Cid -> string;
  Quote : string -> string
}.

Record proxyBlockstore : Type := mkProxyBlockstore {
  httpClient : Client;
  gatewayURL : list string;
  validate : bool;
  rand : Rand
}.

Section WithEnv.
Variable E : Env.

(** [NewProxyBlockstore(gatewayURL, cdns)] *)
Definition NewProxyBlockstore (gatewayURL : list string) (cdns : option CachedDNS)
  : result proxyBlockstore :=
  if Nat.eqb (length gatewayURL) 0 then
    Err (errorString "missing gateway URLs to which to proxy")
  else
    let s := now E in
    let rand := s in
    let transport :=
      {| MaxIdleConns := 1000;
         MaxConnsPerHost := 100;
         MaxIdleConnsPerHost := 100;
         IdleConnTimeout := 90 * Second;
         ForceAttemptHTTP2 := true;
         DialContext := None |} in
    let transport :=
      match cdns with
      | Some d =>
          {| MaxIdleConns := MaxIdleConns transport;
             MaxConnsPerHost := MaxConnsPerHost transport;
             MaxIdleConnsPerHost := MaxIdleConnsPerHost transport;
             IdleConnTimeout := IdleConnTimeout transport;
             ForceAttemptHTTP2 := ForceAttemptHTTP2 transport;
             DialContext := Some d |}
      | None => transport
      end in
    Ok {| gatewayURL := gatewayURL;
          httpClient := {| Timeout := getBlockTimeout; Transport_ := transport |};
          validate := true;
          rand := rand |}.

(** [ps.getRandomGatewayURL()]: draws an index and advances [ps.rand].  The
    constructor guarantees a non-empty list and [Intn] an index in range, so
    the default of the lookup is never used. *)
Definition getRandomGatewayURL (ps : proxyBlockstore) : string * proxyBlockstore :=
  let '(i, r) := Intn E (rand ps) (length (gatewayURL ps)) in
  (default EmptyString (gatewayURL ps !! i),
   {| httpClient := httpClient ps; gatewayURL := gatewayURL ps;
      validate := validate ps; rand := r |}).

(** [ps.httpClient.Do(req)] *)
Definition Client_Do (c : Client) (req : Request) : result Response :=
  Do (net E) req.

(** The validation step of [fetch]: [nil] when the bytes are accepted. *)
Definition checkHash (ps : proxyBlockstore) (c : Cid) (rb : bytes) : option error :=
  if validate ps then
    match Sum (hash E) (Cid_Prefix c) rb with
    | Err _ => Some ErrWrongHash
    | Ok nc => if negb (Equals nc c) then Some ErrWrongHash else None
    end
  else None.

(** [ps.fetch(ctx, c)]: returns the Go pair [(block, err)] and the store
    after the call. *)
Definition fetch (ps : proxyBlockstore) (c : Cid)
  : (option Block * option error) * proxyBlockstore :=
  let '(gw, ps) := getRandomGatewayURL ps in
  let urlStr := gw +:+ "/ipfs/" +:+ Cid_String E c +:+ "?format=raw" in
  match NewRequestWithContext (net E) MethodGet urlStr with
  | Err err => ((None, Some err), ps)
  | Ok req =>
      let req := Header_Set req "Accept" "application/vnd.ipld.raw" in
      match Client_Do (httpClient ps) req with
      | Err err => ((None, Some err), ps)
      | Ok resp =>
          if negb (StatusCode resp =? StatusOK)%Z then
            ((None, Some (errorString
                ("http error from block gateway: " +:+ Status resp))), ps)
          else
            match ReadAll (Body resp) with
            | Err err => ((None, Some err), ps)
            | Ok rb =>
                match checkHash ps c rb with
                | Some err => ((None, Some err), ps)
                | None => (NewBlockWithCid (hash E) (debug E) rb c, ps)
                end
            end
      end
  end.

(** [ps.Has(ctx, c)] *)
Definition Has (ps : proxyBlockstore) (c : Cid)
  : (bool * option error) * proxyBlockstore :=
  let '((blk, err), ps) := fetch ps c in
  match err with
  | Some err => ((false, Some err), ps)
  | None => ((bool_decide (blk <> None), None), ps)
  end.

(** [ps.Get(ctx, c)] *)
Definition Get (ps : proxyBlockstore) (c : Cid)
  : (option Block * option error) * proxyBlockstore :=
  let '((blk, err), ps) := fetch ps c in
  match err with
  | Some err => ((None, Some err), ps)
  | None => ((blk, None), ps)
  end.

(** [ps.GetSize(ctx, c)].  [blk.RawData()] on a nil block would panic; the
    model writes 0 there ([fetch] never returns [(nil, nil)]). *)
Definition GetSize (ps : proxyBlockstore) (c : Cid)
  : (nat * option error) * proxyBlockstore :=
  let '((blk, err), ps) := fetch ps c in
  match err with
  | Some err => ((0, Some err), ps)
  | None => ((from_option (fun b => String.length (RawData b)) 0 blk, None), ps)
  end.

(** [ps.HashOnRead(enabled)] *)
Definition HashOnRead (ps : proxyBlockstore) (enabled : bool) : proxyBlockstore :=
  {| httpClient := httpClient ps; gatewayURL := gatewayURL ps;
     validate := enabled; rand := rand ps |}.

(** [c.Put(ctx, block)] *)
Definition Put (c : proxyBlockstore) (b : Block) : option error * proxyBlockstore :=
  (Some ErrNotImplemented, c).

(** [c.PutMany(ctx, blocks)] *)
Definition PutMany (c : proxyBlockstore) (bs : list Block)
  : option error * proxyBlockstore :=
  (Some ErrNotImplemented, c).

(** [c.AllKeysChan(ctx)]: the channel is the list of keys it would yield. *)
Definition AllKeysChan (c : proxyBlockstore)
  : (option (list Cid) * option error) * proxyBlockstore :=
  ((None, Some ErrNotImplemented), c).

(** [c.DeleteBlock(ctx, cid)] *)
Definition DeleteBlock (c : proxyBlockstore) (k : Cid)
  : option error * proxyBlockstore :=
  (Some ErrNotImplemented, c).


(** The methods of the [blockstore.Blockstore] interface, as calls that can be
    made on a store, and what each returns. *)
Inductive call : Type :=
| CallHas (c : Cid)
| CallGet (c : Cid)
| CallGetSize (c : Cid)
| CallHashOnRead (enabled : bool)
| CallPut (b : Block)
| CallPutMany (bs : list Block)
| CallAllKeysChan
| CallDeleteBlock (c : Cid).

Inductive reply : Type :=
| RetBool (b : bool) (err : option error)
| RetBlock (b : option Block) (err : option error)
| RetInt (n : nat) (err : option error)
| RetNone
| RetErr (err : option error)
| RetChan (ch : option (list Cid)) (err : option error).

Definition invoke (ps : proxyBlockstore) (m : call) : reply * proxyBlockstore :=
  match m with
  | CallHas c => let '((b, err), ps) := Has ps c in (RetBool b err, ps)
  | CallGet c => let '((b, err), ps) := Get ps c in (RetBlock b err, ps)
  | CallGetSize c => let '((n, err), ps) := GetSize ps c in (RetInt n err, ps)
  | CallHashOnRead enabled => (RetNone, HashOnRead ps enabled)
  | CallPut b => let '(err, ps) := Put ps b in (RetErr err, ps)
  | CallPutMany bs => let '(err, ps) := PutMany ps bs in (RetErr err, ps)
  | CallAllKeysChan => let '((ch, err), ps) := AllKeysChan ps in (RetChan ch err, ps)
  | CallDeleteBlock c => let '(err, ps) := DeleteBlock ps c in (RetErr err, ps)
  end.

(** A sequence of calls, made one after the other on the same store. *)
Fixpoint invokeAll (ps : proxyBlockstore) (ms : list call) : proxyBlockstore :=
  match ms with
  | [] => ps
  | m :: ms => invokeAll (snd (invoke ps m)) ms
  end.

End WithEnv.

End gateway.

(* ===================================================================== *)
(** ** package path, package ipns: what the fetcher uses of them *)
(* ===================================================================== *)
Module path.

(** Modelled from the spec: package path ([Path], [ImmutablePath],
    [NewImmutablePath]) is not part of the sources.  The spec: a content path
    is "a sequence of segments rooted at either an immutable CID or a mutable
    name", and "a path is mutable iff its root is a name rather than a direct
    CID". *)
Inductive Root : Type :=
| RootCid (c : Cid)
| RootName (name : string).

Record Path : Type := mkPath {
  root : Root;
  remainder : list string
}.

#[global] Instance Root_eq_dec : EqDecision Root.
Proof. solve_decision. Defined.
#[global] Instance Path_eq_dec : EqDecision Path.
Proof. solve_decision. Defined.

(** [p.Mutable()] *)
Definition Mutable (p : Path) : bool :=
  match root p with
  | RootName _ => true
  | RootCid _ => false
  end.

Section WithEncoding.
Variable Cid_String : Cid -> string.

(** [p.Segments()]: the namespace, the root, then the remaining segments. *)
Definition Segments (p : Path) : list string :=
  match root p with
  | RootCid c => "ipfs" :: Cid_String c :: remainder p
  | RootName n => "ipns" :: n :: remainder p
  end.

(** [p.String()] *)
Definition Path_String (p : Path) : string :=
  foldr (fun seg acc => "/" +:+ seg +:+ acc) EmptyString (Segments p).

End WithEncoding.

(** An immutable path: the path and the CID at its root. *)
Record ImmutablePath : Type := mkImmutablePath {
  ipath : Path;
  rootCid : Cid
}.

Definition ErrExpectedImmutable : error :=
  errorString "path was expected to be immutable".

(** [path.NewImmutablePath(p)] *)
Definition NewImmutablePath (p : Path) : result ImmutablePath :=
  match root p with
  | RootName _ => Err ErrExpectedImmutable
  | RootCid c => Ok (mkImmutablePath p c)
  end.

(** An [ImmutablePath] used where a [Path] is expected. *)
Definition asPath (ip : ImmutablePath) : Path := ipath ip.

End path.
Export path.

Module ipns.

(** A name: the text it is written as. *)
Record Name : Type := mkName { Name_String : string }.

(** [name.AsPath()] *)
Definition AsPath (name : Name) : Path :=
  mkPath (RootName (Name_String name)) [].

(** Modelled from the spec: package ipns is not part of the sources.  A name
    record is "a signed, versioned value bound to a mutable name; contains a
    target path (commonly itself immutable), a sequence number, and a validity
    window". *)
Record Record_ : Type := mkRecord {
  target : bytes;
  sequence : N;
  validity : Z;
  signature : bytes
}.

End ipns.
Export ipns.

(* ===================================================================== *)
(** ** The block archive reader and the local block store *)
(* ===================================================================== *)
Module car.

(** Modelled from the spec: the archive reader (go-car's [BlockReader]) is
    not part of the sources.  The spec: the archive is "a sequence of framed
    (CID, bytes) blocks terminated by end-of-stream; for every block, computes
    the digest using the hash function named in that block's CID and compares
    to the embedded digest"; a mismatch "surfaces HashMismatch identifying the
    offending CID" and "malformed framing aborts with ArchiveCorrupt". *)
Inductive Frame : Type :=
| Framed (c : Cid) (data : bytes)
| Malformed.

(** A reader over the frames not read yet; [fault] is the error the
    underlying stream ends with, if it does not end cleanly. *)
Record BlockReader : Type := mkBlockReader {
  pending : list Frame;
  fault : option error
}.

Definition ArchiveCorrupt : error := errorString "ArchiveCorrupt".
Definition HashMismatch (Cid_String : Cid -> string) (c : Cid) : error :=
  errorString ("HashMismatch: " +:+ Cid_String c).

(** [car.Next()]: the next block, verified, and the reader after the call. *)
Definition Next (hash : Hasher) (debug : bool) (Cid_String : Cid -> string)
    (br : BlockReader) : (option Block * option error) * BlockReader :=
  match pending br with
  | [] => ((None, Some (default EOF (fault br))), br)
  | Malformed :: rest => ((None, Some ArchiveCorrupt), mkBlockReader rest (fault br))
  | Framed c data :: rest =>
      let br := mkBlockReader rest (fault br) in
      match Sum hash (Cid_Prefix c) data with
      | Err e => ((None, Some e), br)
      | Ok hashed =>
          if negb (Equals hashed c) then ((None, Some (HashMismatch Cid_String c)), br)
          else (NewBlockWithCid hash debug data c, br)
      end
  end.

End car.
Export car.

Module blockstore.

(** Modelled from the spec: the local block store (package blockstore over an
    in-memory datastore) is not part of the sources.  The spec: "a mapping
    from CID to verified bytes, write-once per key"; "duplicate writes of an
    already-present key are idempotent no-ops". *)
Definition Put (bs : gmap Cid bytes) (block : Block) : option error * gmap Cid bytes :=
  match bs !! Block_Cid block with
  | Some _ => (None, bs)
  | None => (None, <[Block_Cid block := RawData block]> bs)
  end.

End blockstore.

(* ===================================================================== *)
(** ** package main of examples/verified-fetch: the fetcher *)
(* ===================================================================== *)
Module verifiedfetch.

(** What the fetcher takes from outside. [openFile] stands for the walk from
    the root to the addressed file over the local store (path resolver, DAG
    service and UnixFS file construction). *)
Record Env : Type := mkEnv {
  hash : Hasher;
  debug : bool;
  net : Network;
  Cid_String : Cid -> string;
  NameFromString : string -> result Name;
  MaxRecordSize : Z;
  UnmarshalRecord : bytes -> result Record_;
  ValidateWithName : Record_ -> Name -> option error;
  NewPath : string -> result Path;
  dnsResolve : Path -> result Path;
  decodeCar : bytes -> result (list Frame);
  openFile : gmap Cid bytes -> ImmutablePath -> result ReadCloser;
  OpenFile : string -> option error
}.

Record fetcher : Type := mkFetcher {
  gateway : string;
  limit : Z;
  userAgent : string
}.

(** [type fetcherOption func(f *fetcher) error]: the fetcher after the call
    and the error returned. *)
Definition fetcherOption := fetcher -> fetcher * option error.

Definition withUserAgent (userAgent : string) : fetcherOption :=
  fun f => ({| gateway := gateway f; limit := limit f; userAgent := userAgent |}, None).

Definition withLimit (limit : Z) : fetcherOption :=
  fun f => ({| gateway := gateway f; limit := limit; userAgent := userAgent f |}, None).

(** [strings.TrimRight(s, cutset)]: [s] without its trailing characters that
    occur in [cutset]. *)
Fixpoint inCutset (a : ascii) (cutset : string) : bool :=
  match cutset with
  | EmptyString => false
  | String b cutset => if Ascii.eqb a b then true else inCutset a cutset
  end.

Fixpoint TrimRight (s cutset : string) : string :=
  match s with
  | EmptyString => EmptyString
  | String a s =>
      match TrimRight s cutset with
      | EmptyString => if inCutset a cutset then EmptyString else String a EmptyString
      | t => String a t
      end
  end.

(** The loop of [newFetcher] over the options. *)
Fixpoint applyOptions (f : fetcher) (options : list fetcherOption) : result fetcher :=
  match options with
  | [] => Ok f
  | option :: options =>
      match option f with
      | (_, Some err) => Err err
      | (f, None) => applyOptions f options
      end
  end.

(** [newFetcher(gateway, options...)] *)
Definition newFetcher (gateway : string) (options : list fetcherOption) : result fetcher :=
  if String.eqb gateway EmptyString then
    Err (errorString "a gateway must be set")
  else
    let f := {| gateway := TrimRight gateway "/"; limit := 0; userAgent := EmptyString |} in
    applyOptions f options.

(** [newLimitReadCloser(rc, limit)]: reading stops after [limit] bytes; an
    error of the stream behind them is then never met. *)
Definition newLimitReadCloser (rc : ReadCloser) (limit : Z) : ReadCloser :=
  if (limit <=? Z.of_nat (String.length (content rc)))%Z then
    {| content := substring 0 (Z.to_nat limit) (content rc); readFault := None |}
  else rc.

Section WithEnv.
Variable E : Env.

(** [f.httpRequest(ctx, p, accept)] (the line printed to standard output is
    left out). *)
Definition httpRequest (f : fetcher) (p : Path) (accept : string) : result ReadCloser :=
  let url := gateway f +:+ Path_String (Cid_String E) p in
  match NewRequestWithContext (net E) MethodGet url with
  | Err err => Err (Errorf_w "http.NewRequest error: " err)
  | Ok req =>
      let req := Header_Set req "Accept" accept in
      let req :=
        if negb (String.eqb (userAgent f) EmptyString)
        then Header_Set req "User-Agent" (userAgent f) else req in
      match Do (net E) req with
      | Err err => Err (Errorf_w "http.DefaultClient.Do error: " err)
      | Ok resp =>
          if (StatusCode resp >=? 400)%Z then
            match ReadAll (Body resp) with
            | Err err => Err (Errorf_w "error reading error body: " err)
            | Ok mes =>
                Err (errorString
                  ("GET " +:+ url +:+ " error: " +:+ Status resp +:+ ": " +:+ mes))
            end
          else
            let rc :=
              if (limit f >? 0)%Z then newLimitReadCloser (Body resp) (limit f)
              else Body resp in
            Ok rc
      end
  end.

(** [rec.Value()] *)
Definition Record_Value (rec : Record_) : result Path := NewPath E (target rec).

(** [f.resolveIPNS(ctx, name)] *)
Definition resolveIPNS (f : fetcher) (name : Name) : result Path :=
  match httpRequest f (AsPath name) "application/vnd.ipfs.ipns-record" with
  | Err err => Err err
  | Ok rc =>
      let rc := newLimitReadCloser rc (MaxRecordSize E) in
      match ReadAll rc with
      | Err err => Err err
      | Ok rawRecord =>
          match UnmarshalRecord E rawRecord with
          | Err err => Err err
          | Ok rec =>
              match ValidateWithName E rec name with
              | Some err => Err err
              | None => Record_Value rec
              end
          end
      end
  end.

(** [f.resolveDNSLink(ctx, p)] *)
Definition resolveDNSLink (f : fetcher) (p : Path) : result Path :=
  match dnsResolve E p with
  | Err err => Err err
  | Ok res => Ok res
  end.

(** The body of the loop of [resolvePath]: one resolution of the root. *)
Definition resolveStep (f : fetcher) (p : Path) : result Path :=
  match NameFromString E (default EmptyString (Segments (Cid_String E) p !! 1)) with
  | Ok name => resolveIPNS f name
  | Err _ => resolveDNSLink f p
  end.

(** [f.resolvePath(ctx, p)].  The Go loop [for p.Mutable() { ... }] has no
    bound; [fuel] is the number of iterations the model may run, and [None]
    says that the loop is still running after them. *)
Fixpoint resolvePath (f : fetcher) (fuel : nat) (p : Path)
  : option (result ImmutablePath) :=
  if Mutable p then
    match fuel with
    | O => None
    | S fuel =>
        match resolveStep f p with
        | Err err => Some (Err err)
        | Ok p => resolvePath f fuel p
        end
    end
  else Some (NewImmutablePath p).

(** [gocarv2.NewBlockReader(r)] *)
Definition NewBlockReader (r : ReadCloser) : result BlockReader :=
  match decodeCar E (content r) with
  | Err err => Err err
  | Ok frames => Ok (mkBlockReader frames (readFault r))
  end.

(** The loop of [carToFileStream] that adds all blocks to the block store:
    the error it ends with (if any), the reader and the store at that point.
    [None] when [fuel] iterations did not end it. *)
Fixpoint addBlocks (fuel : nat) (car : BlockReader) (blockStore : gmap Cid bytes)
  : option (option error * BlockReader * gmap Cid bytes) :=
  match fuel with
  | O => None
  | S fuel =>
      let '((block, err), car) := Next (hash E) (debug E) (Cid_String E) car in
      if bool_decide (err <> None /\ err <> Some EOF) then
        Some (Some (Errorf_s "error reading block from car: " (default EOF err)),
              car, blockStore)
      else
        match block with
        | None => Some (None, car, blockStore)
        | Some block =>
            match blockstore.Put blockStore block with
            | (Some err, blockStore) =>
                Some (Some (Errorf_s "error putting block in blockstore: " err),
                      car, blockStore)
            | (None, blockStore) => addBlocks fuel car blockStore
            end
        end
  end.

(** The ingestion part of [carToFileStream]: a fresh store, the reader, the
    loop.  Every iteration but the last takes a frame off the reader, so the
    loop ends within [S (length (pending car))] iterations. *)
Definition ingest (r : ReadCloser)
  : option (option error * BlockReader * gmap Cid bytes) :=
  match NewBlockReader r with
  | Err err => Some (Some (Errorf_s "error creating car reader: " err),
                     mkBlockReader [] (readFault r), ∅)
  | Ok car => addBlocks (S (length (pending car))) car ∅
  end.

(** [carToFileStream(ctx, r, imPath)] *)
Definition carToFileStream (r : ReadCloser) (imPath : ImmutablePath)
  : option (result ReadCloser) :=
  match ingest r with
  | None => None
  | Some (Some err, _, _) => Some (Err err)
  | Some (None, _, blockStore) => Some (openFile E blockStore imPath)
  end.

(** [io.Copy(fd, rc)] into the file [name]: the bytes of the stream end up in
    the file, and the error the stream ends with, if any, is returned. *)
Definition Copy (fs : gmap string bytes) (name : string) (rc : ReadCloser)
  : option error * gmap string bytes :=
  (readFault rc, <[name := content rc]> fs).

(** [f.fetch(ctx, p, output)] over the files [fs]: the error returned and the
    files afterwards.  [os.OpenFile] with [O_CREATE|O_TRUNC] leaves an empty
    file behind before the copy starts. *)
Definition fetch (f : fetcher) (fuel : nat) (p : Path) (output : string)
    (fs : gmap string bytes) : option (option error * gmap string bytes) :=
  match resolvePath f fuel p with
  | None => None
  | Some (Err err) => Some (Some (Errorf_w "path could not be resolved: " err), fs)
  | Some (Ok imPath) =>
      match httpRequest f (asPath imPath) "application/vnd.ipld.car" with
      | Err err => Some (Some (Errorf_w "failed to fetch CAR: " err), fs)
      | Ok rc =>
          match carToFileStream rc imPath with
          | None => None
          | Some (Err err) =>
              Some (Some (Errorf_w "failed to read car stream: " err), fs)
          | Some (Ok rc) =>
              match OpenFile E output with
              | Some err =>
                  Some (Some (Errorf_w "failed to open output file: " err), fs)
              | None =>
                  let fs := <[output := EmptyString]> fs in
                  Some (Copy fs output rc)
              end
          end
      end
  end.

(** [run(gatewayURL, ipfsPath, output, userAgent, limit)] of main.go *)
Definition run (fuel : nat) (gatewayURL ipfsPath output userAgent : string)
    (limit : Z) (fs : gmap string bytes)
  : option (option error * gmap string bytes) :=
  match NewPath E ipfsPath with
  | Err err => Some (Some err, fs)
  | Ok p =>
      let options := [withUserAgent userAgent; withLimit limit] in
      match newFetcher gatewayURL options with
      | Err err => Some (Some err, fs)
      | Ok f => fetch f fuel p output fs
      end
  end.

End WithEnv.

End verifiedfetch.

(* ===================================================================== *)
(** ** package notifications: one subscription on the bus *)
(* ===================================================================== *)
Module notifications.

Definition bufferSize : nat := 16.

(** [u.Key] and the block of this package: its multihash is its key. *)
Definition Key := string.

Record Block : Type := mkBlock {
  Multihash : string;
  Data : bytes
}.

Definition Block_Key (b : Block) : Key := Multihash b.

#[global] Instance Block_eq_dec : EqDecision Block.
Proof. solve_decision. Defined.

(** [toStrings(keys)] *)
Definition toStrings (keys : list Key) : list string :=
  foldl (fun strs key => (strs ++ [key])%list) [] keys.

(** Where the goroutine started by [Subscribe] stands: at the first [select]
    with the keys the [range] loop still has to go through, at the second
    [select] with the block it is about to pass on, or returned (the deferred
    function has run). *)
Inductive position : Type :=
| AtReceive (rest : list Key)
| AtSend (rest : list Key) (block : Block)
| Returned.

(** One subscription together with what it shares with the bus and with its
    caller.  [topics] is the registration of [valuesCh] in the wrapped bus;
    [delivered] records every block sent on [blocksCh], in order. *)
Record state : Type := mkState {
  capacity : nat;
  topics : list string;
  valuesCh : list Block;
  valuesClosed : bool;
  blocksCh : list Block;
  blocksClosed : bool;
  ctxDone : bool;
  goroutine : position;
  delivered : list Block
}.

(** [ps.Subscribe(ctx, keys...)]: both channels are made with room for
    [len(keys)] elements, [valuesCh] is registered for the keys, and the
    goroutine starts at the head of its loop. *)
Definition Subscribe (keys : list Key) : state :=
  {| capacity := length keys;
     topics := toStrings keys;
     valuesCh := []; valuesClosed := false;
     blocksCh := []; blocksClosed := false;
     ctxDone := false;
     goroutine := AtReceive keys;
     delivered := [] |}.

(** Modelled from the spec: the wrapped topic bus ([pubsub.PubSub]) is not
    part of the sources.  The spec: "Publish fans a single block to every live
    subscription registered for that block's key", and "a subscriber that does
    not keep up may simply not receive blocks published while its queue is
    full". *)
Definition Pub (s : state) (block : Block) (topic : string) : state :=
  if bool_decide (topic ∈ topics s) then
    if bool_decide (length (valuesCh s) < capacity s) then
      mkState (capacity s) (topics s) ((valuesCh s ++ [block])%list) (valuesClosed s)
              (blocksCh s) (blocksClosed s) (ctxDone s) (goroutine s) (delivered s)
    else s
  else s.

(** [ps.Publish(block)] *)
Definition Publish (s : state) (block : Block) : state :=
  let topic := Block_Key block in
  Pub s block topic.

(** [ps.Shutdown()]: the bus drops its registrations and closes the channels
    registered with it. *)
Definition Shutdown (s : state) : state :=
  mkState (capacity s) [] (valuesCh s) true (blocksCh s) (blocksClosed s)
          (ctxDone s) (goroutine s) (delivered s).

(** The deferred function of the goroutine: [Unsub], then [close(blocksCh)]. *)
Definition retire (s : state) : state :=
  mkState (capacity s) [] (valuesCh s) (valuesClosed s) (blocksCh s) true
          (ctxDone s) Returned (delivered s).

(** What can happen next: calls from outside ([Publish], the cancellation of
    [ctx], [Shutdown], the caller reading [blocksCh]) and the moves of the
    goroutine ([select] picks any case that is ready, so the case taken is
    part of the event). *)
Inductive event : Type :=
| EvPublish (block : Block)
| EvCancel
| EvShutdown
| EvRead
| GoLoopEnd
| GoCtxDone
| GoReceive
| GoSend.

Definition step (s : state) (e : event) : option state :=
  match e with
  | EvPublish block => Some (Publish s block)
  | EvCancel =>
      Some (mkState (capacity s) (topics s) (valuesCh s) (valuesClosed s) (blocksCh s)
                    (blocksClosed s) true (goroutine s) (delivered s))
  | EvShutdown => Some (Shutdown s)
  | EvRead =>
      match blocksCh s with
      | [] => None
      | _ :: bs =>
          Some (mkState (capacity s) (topics s) (valuesCh s) (valuesClosed s) bs
                        (blocksClosed s) (ctxDone s) (goroutine s) (delivered s))
      end
  | GoLoopEnd =>
      (* the range loop is over *)
      match goroutine s with
      | AtReceive [] => Some (retire s)
      | _ => None
      end
  | GoCtxDone =>
      (* case <-ctx.Done(): return, at either select *)
      match goroutine s with
      | AtReceive (_ :: _) | AtSend _ _ => if ctxDone s then Some (retire s) else None
      | _ => None
      end
  | GoReceive =>
      (* case val, ok := <-valuesCh; every value on the channel is a block, so
         the type assertion that follows succeeds *)
      match goroutine s with
      | AtReceive (_ :: rest) =>
          match valuesCh s with
          | block :: vs =>
              Some (mkState (capacity s) (topics s) vs (valuesClosed s) (blocksCh s)
                            (blocksClosed s) (ctxDone s) (AtSend rest block) (delivered s))
          | [] => if valuesClosed s then Some (retire s) else None
          end
      | _ => None
      end
  | GoSend =>
      (* case blocksCh <- block *)
      match goroutine s with
      | AtSend rest block =>
          if bool_decide (length (blocksCh s) < capacity s) then
            Some (mkState (capacity s) (topics s) (valuesCh s) (valuesClosed s)
                          ((blocksCh s ++ [block])%list) (blocksClosed s) (ctxDone s)
                          (AtReceive rest) ((delivered s ++ [block])%list))
          else None
      | _ => None
      end
  end.

(** A sequence of events, each enabled when it happens. *)
Fixpoint run (s : state) (es : list event) : option state :=
  match es with
  | [] => Some s
  | e :: es =>
      match step s e with
      | Some s => run s es
      | None => None
      end
  end.

(** The subscription has retired: its channel is closed and its registration
    released. *)
Definition retired (s : state) : bool :=
  blocksClosed s && bool_decide (topics s = []).

End notifications.

(* ===================================================================== *)
(** ** package files: ReaderFile *)
(* ===================================================================== *)
Module files.

(** [os.FileInfo], as far as the code looks at it. *)
Record FileInfo : Type := mkFileInfo {
  FileInfo_Name : string;
  FileInfo_Size : Z
}.

(** An [io.ReadCloser] with state of type [R]: [Read] with a buffer of [n]
    bytes gives the bytes read and an error, [Close] an error; [SeekOf] is
    the [Seek] method when the reader is also an [io.Seeker]. *)
Record Reader (R : Type) : Type := mkReader {
  ReadOf : R -> nat -> (bytes * option error) * R;
  CloseOf : R -> option error * R;
  SeekOf : option (R -> Z -> Z -> (Z * option error) * R)
}.
Arguments ReadOf {R} _ _ _.
Arguments CloseOf {R} _ _.
Arguments SeekOf {R} _.

(** What the file takes from outside: [filepath.Abs] and the two error values
    of the package, which are declared in another file of it. *)
Record Env : Type := mkEnv {
  Abs : string -> result string;
  ErrNotDirectory : error;
  ErrNotSupported : error
}.

Record ReaderFile (R : Type) : Type := mkReaderFile {
  abspath : string;
  reader : R;
  stat : option FileInfo
}.
Arguments mkReaderFile {R} _ _ _.
Arguments abspath {R} _.
Arguments reader {R} _.
Arguments stat {R} _.

Section WithReader.
Variable E : Env.
Context {R : Type}.
Variable io : Reader R.

(** [NewReaderFile(reader, stat)] *)
Definition NewReaderFile (reader : R) (stat : option FileInfo) : ReaderFile R :=
  mkReaderFile EmptyString reader stat.

(** [NewReaderPathFile(path, reader, stat)] *)
Definition NewReaderPathFile (path : string) (reader : R) (stat : option FileInfo)
  : result (ReaderFile R) :=
  match Abs E path with
  | Err err => Err err
  | Ok abspath => Ok (mkReaderFile abspath reader stat)
  end.

(** [f.IsDirectory()] *)
Definition IsDirectory (f : ReaderFile R) : bool := false.

(** [f.NextFile()] *)
Definition NextFile (f : ReaderFile R)
  : string * option (ReaderFile R) * option error :=
  (EmptyString, None, Some (ErrNotDirectory E)).

(** [f.AbsPath()] *)
Definition AbsPath (f : ReaderFile R) : string := abspath f.

(** [f.Read(p)], with [n = len(p)] *)
Definition Read (f : ReaderFile R) (n : nat) : (bytes * option error) * ReaderFile R :=
  let '(out, r) := ReadOf io (reader f) n in
  (out, mkReaderFile (abspath f) r (stat f)).

(** [f.Close()] *)
Definition Close (f : ReaderFile R) : option error * ReaderFile R :=
  let '(err, r) := CloseOf io (reader f) in
  (err, mkReaderFile (abspath f) r (stat f)).

(** [f.Stat()] *)
Definition Stat (f : ReaderFile R) : option FileInfo := stat f.

(** [f.Size()] *)
Definition Size (f : ReaderFile R) : Z * option error :=
  match stat f with
  | None => (0%Z, Some (errorString "file size unknown"))
  | Some st => (FileInfo_Size st, None)
  end.

(** [f.Seek(offset, whence)] *)
Definition Seek (f : ReaderFile R) (offset whence : Z)
  : (Z * option error) * ReaderFile R :=
  match SeekOf io with
  | Some seek =>
      let '(out, r) := seek (reader f) offset whence in
      (out, mkReaderFile (abspath f) r (stat f))
  | None => ((0%Z, Some (ErrNotSupported E)), f)
  end.

(** The methods as calls on a file, and the file after a sequence of them. *)
Inductive call : Type :=
| CallIsDirectory
| CallNextFile
| CallAbsPath
| CallRead (n : nat)
| CallClose
| CallStat
| CallSize
| CallSeek (offset whence : Z).

Definition invoke (f : ReaderFile R) (m : call) : ReaderFile R :=
  match m with
  | CallRead n => snd (Read f n)
  | CallClose => snd (Close f)
  | CallSeek offset whence => snd (Seek f offset whence)
  | CallIsDirectory | CallNextFile | CallAbsPath | CallStat | CallSize => f
  end.

Definition invokeAll (f : ReaderFile R) (ms : list call) : ReaderFile R :=
  foldl invoke f ms.

End WithReader.

End files.

(* ===================================================================== *)
(** ** Vocabulary of the statements *)
(* ===================================================================== *)


(** The bytes [data] hash to the digest of [c] under the hash function named
    in [c]. *)
Definition matchesDigest (hash : Hasher) (c : Cid) (data : bytes) : Prop :=
  hash (hashFunction c) data = Some (digest c).

(** The request [gateway.fetch] sends for [c] from the store [ps]. *)
Definition blockRequest (E : gateway.Env) (ps : gateway.proxyBlockstore) (c : Cid)
  : result Request :=
  let '(gw, _) := gateway.getRandomGatewayURL E ps in
  match NewRequestWithContext (gateway.net E) MethodGet
          (gw +:+ "/ipfs/" +:+ gateway.Cid_String E c +:+ "?format=raw") with
  | Err err => Err err
  | Ok req => Ok (Header_Set req "Accept" "application/vnd.ipld.raw")
  end.


(** The URL and the request [verifiedfetch.httpRequest] sends. *)
Definition requestURL (E : verifiedfetch.Env) (f : verifiedfetch.fetcher) (p : Path)
  : string :=
  verifiedfetch.gateway f +:+ Path_String (verifiedfetch.Cid_String E) p.

Definition fetcherRequest (E : verifiedfetch.Env) (f : verifiedfetch.fetcher)
    (p : Path) (accept : string) : result Request :=
  match NewRequestWithContext (verifiedfetch.net E) MethodGet (requestURL E f p) with
  | Err err => Err err
  | Ok req =>
      let req := Header_Set req "Accept" accept in
      Ok (if negb (String.eqb (verifiedfetch.userAgent f) EmptyString)
          then Header_Set req "User-Agent" (verifiedfetch.userAgent f) else req)
  end.


(** What holds of every state a subscription for [keys] goes through. *)
Record invariant (keys : list notifications.Key) (s : notifications.state) : Prop :=
mkInvariant {
  inv_capacity : notifications.capacity s = length keys;
  inv_topics : forall t, t ∈ notifications.topics s -> t ∈ keys;
  inv_values : forall b, b ∈ notifications.valuesCh s -> notifications.Block_Key b ∈ keys;
  inv_delivered :
    forall b, b ∈ notifications.delivered s -> notifications.Block_Key b ∈ keys;
  inv_count : length (notifications.delivered s) <= length keys;
  inv_buffer : length (notifications.blocksCh s) <= length (notifications.delivered s);
  inv_goroutine :
    match notifications.goroutine s with
    | notifications.AtReceive rest =>
        length (notifications.delivered s) + length rest = length keys /\
        notifications.blocksClosed s = false
    | notifications.AtSend rest block =>
        length (notifications.delivered s) + S (length rest) = length keys /\
        notifications.Block_Key block ∈ keys /\ notifications.blocksClosed s = false
    | notifications.Returned =>
        notifications.blocksClosed s = true /\ notifications.topics s = [] /\
        (length (notifications.delivered s) = length keys \/
         notifications.ctxDone s = true \/ notifications.valuesClosed s = true)
    end
}.

(** The write operations of the block store interface. *)
Definition isWrite (m : gateway.call) : bool :=
  match m with
  | gateway.CallPut _ | gateway.CallPutMany _
  | gateway.CallAllKeysChan | gateway.CallDeleteBlock _ => true
  | _ => false
  end.

(** The error of a reply, and whether the reply carries a value besides it. *)
Definition replyError (r : gateway.reply) : option error :=
  match r with
  | gateway.RetBool _ err | gateway.RetBlock _ err | gateway.RetInt _ err
  | gateway.RetErr err | gateway.RetChan _ err => err
  | gateway.RetNone => None
  end.

Definition replyEmpty (r : gateway.reply) : bool :=
  match r with
  | gateway.RetErr _ | gateway.RetChan None _ | gateway.RetBlock None _
  | gateway.RetNone => true
  | _ => false
  end.

(** The [validate] flag after the calls [ms], from the [HashOnRead] calls
    alone: the argument of the last one, or [init] without any. *)
Definition lastHashOnRead (init : bool) (ms : list gateway.call) : bool :=
  foldl (fun v m => match m with gateway.CallHashOnRead b => b | _ => v end) init ms.

(** An option that leaves the gateway of the fetcher alone. *)
Definition keepsGateway (o : verifiedfetch.fetcherOption) : Prop :=
  forall f, verifiedfetch.gateway (fst (o f)) = verifiedfetch.gateway f.

(** Every character of [t] occurs in [cutset]. *)
Fixpoint allIn (t cutset : string) : bool :=
  match t with
  | EmptyString => true
  | String a t => verifiedfetch.inCutset a cutset && allIn t cutset
  end.

(** The last character of a text. *)
Fixpoint lastChar (s : string) : option ascii :=
  match s with
  | EmptyString => None
  | String a EmptyString => Some a
  | String _ s => lastChar s
  end.

(** A frame that is well formed and whose bytes match its CID, and the block
    it holds. *)
Definition verifiedFrame (hash : Hasher) (fr : Frame) : Prop :=
  match fr with
  | Framed c data => matchesDigest hash c data
  | Malformed => False
  end.

Definition frameBlock (fr : Frame) : option Block :=
  match fr with
  | Framed c data => Some (blocks.mkBlock c data)
  | Malformed => None
  end.

(** The store after putting the blocks one after the other. *)
Definition putAll (bs : gmap Cid bytes) (blks : list Block) : gmap Cid bytes :=
  foldl (fun bs b => snd (blockstore.Put bs b)) bs blks.

(** The blocks a subscription holds or has passed on, oldest first: those
    delivered, the one the goroutine is about to send, those waiting on
    [valuesCh]. *)
Definition inflight (s : notifications.state) : list notifications.Block :=
  match notifications.goroutine s with
  | notifications.AtSend _ block => [block]
  | _ => []
  end.

Definition queue (s : notifications.state) : list notifications.Block :=
  (notifications.delivered s ++ inflight s ++ notifications.valuesCh s)%list.

(** The blocks published during [es] under one of the topics [T], in order. *)
Fixpoint publishedTo (T : list string) (es : list notifications.event)
  : list notifications.Block :=
  match es with
  | [] => []
  | notifications.EvPublish b :: es =>
      if bool_decide (notifications.Block_Key b ∈ T)
      then b :: publishedTo T es else publishedTo T es
  | _ :: es => publishedTo T es
  end.

(* ===================================================================== *)
(** ** Concrete gateways, used to run the definitions *)
(* ===================================================================== *)
Module examples.

(** The identity hash function (multihash code 0): the digest of the data is
    the data. *)
Definition identityHash : Hasher :=
  fun h data => if (h =? 0)%N then Some data else None.

Definition cidOf (data : bytes) : Cid := mkCid 1 85 0 data.

Definition showCid (c : Cid) : string := "b" +:+ digest c.

(** A gateway that answers every request with the same response. *)
Definition constantNet (resp : Response) : Network :=
  {| urlError := fun _ => None; Do := fun _ => Ok resp |}.

Definition proxyEnv (resp : Response) : gateway.Env :=
  {| gateway.hash := identityHash;
     gateway.debug := false;
     gateway.net := constantNet resp;
     gateway.now := 0%Z;
     gateway.Intn := fun r n => (0, (r + 1)%Z);
     gateway.Cid_String := showCid;
     gateway.Quote := fun s => s |}.

Definition response (code : Z) (status : string) (body : bytes) : Response :=
  {| StatusCode := code; Status := status; Body := mkBody body None |}.

Definition proxyStore : gateway.proxyBlockstore :=
  {| gateway.httpClient :=
       {| gateway.Timeout := gateway.getBlockTimeout;
          gateway.Transport_ := gateway.mkTransport 1000 100 100 (90 * gateway.Second) true None |};
     gateway.gatewayURL := ["https://gw.example"];
     gateway.validate := true;
     gateway.rand := 0%Z |}.

(** A gateway that serves name records: asked for the path [key] (the URL
    without the gateway prefix [gw]), it answers with the record [records]
    holds for it, or with 404. *)
Definition recordNet (gw : string) (records : string -> option bytes) : Network :=
  {| urlError := fun _ => None;
     Do := fun req =>
       let key := substring (String.length gw)
                            (String.length (URL req) - String.length gw) (URL req) in
       match records key with
       | Some rec => Ok (response 200 "200 OK" rec)
       | None => Ok (response 404 "404 Not Found" "no record")
       end |}.

(** Paths of the two forms [/ipns/<name>] and [/ipfs/b<digest>]. *)
Definition parsePath (s : string) : result Path :=
  if String.prefix "/ipns/" s then
    Ok (mkPath (RootName (substring 6 (String.length s - 6) s)) [])
  else if String.prefix "/ipfs/b" s then
    Ok (mkPath (RootCid (cidOf (substring 7 (String.length s - 7) s))) [])
  else Err (errorString "invalid path").

(** An environment of the fetcher over a network and an archive decoder;
    every text is a name, every record is well formed and valid. *)
Definition fetchEnv (net : Network) (frames : result (list Frame)) : verifiedfetch.Env :=
  {| verifiedfetch.hash := identityHash;
     verifiedfetch.debug := false;
     verifiedfetch.net := net;
     verifiedfetch.Cid_String := showCid;
     verifiedfetch.NameFromString := fun s => Ok (mkName s);
     verifiedfetch.MaxRecordSize := 10240;
     verifiedfetch.UnmarshalRecord := fun raw => Ok (mkRecord raw 1 0 "sig");
     verifiedfetch.ValidateWithName := fun _ _ => None;
     verifiedfetch.NewPath := parsePath;
     verifiedfetch.dnsResolve := fun _ => Err (errorString "no DNSLink");
     verifiedfetch.decodeCar := fun _ => frames;
     verifiedfetch.openFile := fun _ _ => Err (errorString "no file");
     verifiedfetch.OpenFile := fun _ => None |}.

Definition theFetcher : verifiedfetch.fetcher :=
  {| verifiedfetch.gateway := "https://gw.example";
     verifiedfetch.limit := 0;
     verifiedfetch.userAgent := EmptyString |}.


(** A gateway on which [a] points at [b] and [b] at the block [data]. *)
Definition twoRecords : verifiedfetch.Env :=
  fetchEnv
    (recordNet "https://gw.example"
       (fun key =>
          if String.eqb key "/ipns/a" then Some "/ipns/b"
          else if String.eqb key "/ipns/b" then Some "/ipfs/bdata"
          else None))
    (Ok []).



(** An archive of three blocks whose second block holds bytes that do not
    match its CID. *)
Definition badArchive : verifiedfetch.Env :=
  fetchEnv (constantNet (response 200 "200 OK" "archive"))
    (Ok [Framed (cidOf "A") "A"; Framed (cidOf "B") "forged"; Framed (cidOf "C") "C"]).

(** An archive of two blocks that match their CIDs, on a gateway that sends
    it for every request; the file behind a path is the block at its root. *)
Definition goodArchive : verifiedfetch.Env :=
  {| verifiedfetch.hash := identityHash;
     verifiedfetch.debug := false;
     verifiedfetch.net := constantNet (response 200 "200 OK" "archive");
     verifiedfetch.Cid_String := showCid;
     verifiedfetch.NameFromString := fun s => Ok (mkName s);
     verifiedfetch.MaxRecordSize := 10240;
     verifiedfetch.UnmarshalRecord := fun raw => Ok (mkRecord raw 1 0 "sig");
     verifiedfetch.ValidateWithName := fun _ _ => None;
     verifiedfetch.NewPath := parsePath;
     verifiedfetch.dnsResolve := fun _ => Err (errorString "no DNSLink");
     verifiedfetch.decodeCar :=
       fun _ => Ok [Framed (cidOf "A") "A"; Framed (cidOf "B") "B"];
     verifiedfetch.openFile :=
       fun bs ip =>
         match bs !! rootCid ip with
         | Some data => Ok (mkBody data None)
         | None => Err (errorString "block not found")
         end;
     verifiedfetch.OpenFile := fun _ => None |}.

(** A block published under the key [k1]. *)
Definition blockK1 : notifications.Block := notifications.mkBlock "k1" "payload".

Definition namePath (name : string) : Path := mkPath (RootName name) [].
Definition blockPath (data : bytes) : Path := mkPath (RootCid (cidOf data)) [].

End examples.

(* ===================================================================== *)
(** * Texts carried by messages *)
(* ===================================================================== *)

Lemma append_assoc (s t u : string) : (s +:+ t) +:+ u = s +:+ (t +:+ u).
Proof.
  induction s as [|a s IH]; [reflexivity|].
  change (String a ((s +:+ t) +:+ u) = String a (s +:+ (t +:+ u))). by rewrite IH.
Qed.

Lemma append_nil_r (s : string) : s +:+ EmptyString = s.
Proof.
  induction s as [|a s IH]; [reflexivity|].
  change (String a (s +:+ EmptyString) = String a s). by rewrite IH.
Qed.

Lemma carries_suffix (pre s : string) : carries (pre +:+ s) s.
Proof. exists pre, EmptyString. by rewrite append_nil_r. Qed.

Lemma carries_inside (pre s post : string) : carries (pre +:+ s +:+ post) s.
Proof. by exists pre, post. Qed.

Lemma carries_after (pre t s : string) : carries t s -> carries (pre +:+ t) s.
Proof.
  intros (a & b & ->). exists (pre +:+ a), b. by rewrite append_assoc.
Qed.

Create HintDb carries.
#[local] Hint Resolve carries_suffix carries_inside carries_after : carries.

(* ===================================================================== *)
(** * Properties of content identifiers and blocks *)
(* ===================================================================== *)

(** [Sum] gives back the CID exactly when the bytes match its digest. *)
Lemma Sum_matches (h : Hasher) (c : Cid) (data : bytes) :
  Sum h (Cid_Prefix c) data = Ok c <-> matchesDigest h c data.
Proof.
  unfold Sum, matchesDigest, Cid_Prefix; simpl.
  destruct (h (hashFunction c) data) as [d|]; split; intros H; try discriminate.
  - injection H as H. destruct c; simpl in *. injection H as ->. reflexivity.
  - injection H as ->. destruct c; reflexivity.
Qed.

(** The errors of [Sum] are not the end-of-stream marker. *)
Lemma Sum_error_not_EOF (h : Hasher) (p : Prefix) (data : bytes) (e : error) :
  Sum h p data = Err e -> e <> EOF.
Proof.
  unfold Sum. destruct (h (MhType p) data); [discriminate|].
  intros [= <-]. discriminate.
Qed.

(** On matching bytes the block constructor succeeds, debug flag or not. *)
Lemma NewBlockWithCid_matches (h : Hasher) (d : bool) (data : bytes) (c : Cid) :
  matchesDigest h c data ->
  NewBlockWithCid h d data c = (Some (blocks.mkBlock c data), None).
Proof.
  intros Hm. apply Sum_matches in Hm. unfold NewBlockWithCid.
  destruct d; [|reflexivity].
  rewrite Hm. unfold Equals. by rewrite bool_decide_eq_true_2.
Qed.

(* ===================================================================== *)
(** * Properties of the proxy block store *)
(* ===================================================================== *)
Module gateway_facts.
Import gateway.

Section WithEnv.
Variable E : Env.

(** [checkHash] with validation on accepts exactly the matching bytes, and
    its only error is [ErrWrongHash]. *)
Lemma checkHash_validate (ps : proxyBlockstore) (c : Cid) (rb : bytes) :
  validate ps = true ->
  (checkHash E ps c rb = None <-> matchesDigest (hash E) c rb) /\
  (~ matchesDigest (hash E) c rb -> checkHash E ps c rb = Some ErrWrongHash).
Proof.
  intros Hv. unfold checkHash. rewrite Hv.
  pose proof (Sum_matches (hash E) c rb) as HS.
  destruct (Sum (hash E) (Cid_Prefix c) rb) as [nc|e] eqn:Hsum.
  - unfold Equals. case_bool_decide as Heq; simpl.
    + subst nc. split; [split; [intros _; apply HS; reflexivity | reflexivity]|].
      intros Hn. exfalso. apply Hn, HS. reflexivity.
    + split; [split; [discriminate|]|reflexivity].
      intros Hm. apply HS in Hm. congruence.
  - split; [split; [discriminate|]|reflexivity].
    intros Hm. apply HS in Hm. discriminate.
Qed.

(** [fetch] written over the request it sends. *)
Lemma fetch_unfold (ps : proxyBlockstore) (c : Cid) :
  fetch E ps c =
  let ps1 := snd (getRandomGatewayURL E ps) in
  match blockRequest E ps c with
  | Err err => ((None, Some err), ps1)
  | Ok req =>
      match Do (net E) req with
      | Err err => ((None, Some err), ps1)
      | Ok resp =>
          if negb (StatusCode resp =? StatusOK)%Z then
            ((None, Some (errorString
                ("http error from block gateway: " +:+ Status resp))), ps1)
          else
            match ReadAll (Body resp) with
            | Err err => ((None, Some err), ps1)
            | Ok rb =>
                match checkHash E ps1 c rb with
                | Some err => ((None, Some err), ps1)
                | None => (NewBlockWithCid (hash E) (debug E) rb c, ps1)
                end
            end
      end
  end.
Proof.
  unfold fetch, blockRequest, Client_Do.
  destruct (getRandomGatewayURL E ps) as [gw ps1]; simpl.
  destruct (NewRequestWithContext _ _ _); reflexivity.
Qed.

Lemma getRandomGatewayURL_validate (ps : proxyBlockstore) :
  validate (snd (getRandomGatewayURL E ps)) = validate ps.
Proof.
  unfold getRandomGatewayURL. destruct (Intn E _ _); reflexivity.
Qed.


(** [NewBlockWithCid] never returns [(nil, nil)], and the block it returns is
    made of the bytes and the CID it was given. *)
Lemma NewBlockWithCid_ok (h : Hasher) (d : bool) (data : bytes) (c : Cid)
    (blk : option Block) :
  NewBlockWithCid h d data c = (blk, None) -> blk = Some (blocks.mkBlock c data).
Proof.
  unfold NewBlockWithCid. destruct d.
  - destruct (Sum h (Cid_Prefix c) data); [|discriminate].
    destruct (negb _); [discriminate|]. congruence.
  - congruence.
Qed.

(** Whenever [fetch] returns without an error it returns a block, whose bytes
    are the body of a 200 response; with validation on they match the CID. *)
Lemma fetch_success (ps : proxyBlockstore) (c : Cid) (blk : option Block) :
  fst (fetch E ps c) = (blk, None) ->
  exists req resp rb,
    blockRequest E ps c = Ok req /\ Do (net E) req = Ok resp /\
    StatusCode resp = StatusOK /\ ReadAll (Body resp) = Ok rb /\
    blk = Some (blocks.mkBlock c rb) /\
    (validate ps = true -> matchesDigest (hash E) c rb).
Proof.
  rewrite fetch_unfold. cbv zeta.
  destruct (blockRequest E ps c) as [req|]; [|discriminate].
  destruct (Do (net E) req) as [resp|] eqn:Hdo; [|discriminate].
  destruct (StatusCode resp =? StatusOK)%Z eqn:Hcode; [|discriminate]. simpl.
  destruct (ReadAll (Body resp)) as [rb|] eqn:Hread; [|discriminate].
  destruct (checkHash E _ c rb) eqn:Hchk; [discriminate|]. simpl.
  intros Hnew. apply NewBlockWithCid_ok in Hnew.
  exists req, resp, rb. split_and!; try done.
  - by apply Z.eqb_eq.
  - intros Hv. eapply checkHash_validate; [|exact Hchk].
    by rewrite getRandomGatewayURL_validate.
Qed.

End WithEnv.

(** C1. With verification enabled, when the bytes of the body that [fetch]
    read for the CID [c] do not hash, under the hash function named in [c],
    to the digest of [c], [fetch] returns [ErrWrongHash] and no block. *)
Theorem fetch_wrong_hash (E : Env) (ps : proxyBlockstore) (c : Cid)
    (req : Request) (resp : Response) (rb : bytes) :
  validate ps = true ->
  blockRequest E ps c = Ok req ->
  Do (net E) req = Ok resp ->
  StatusCode resp = StatusOK ->
  ReadAll (Body resp) = Ok rb ->
  ~ matchesDigest (hash E) c rb ->
  fst (fetch E ps c) = (None, Some ErrWrongHash).
Proof.
  intros Hv Hreq Hdo Hcode Hread Hbad.
  rewrite fetch_unfold. cbv zeta. rewrite Hreq, Hdo, Hcode, Hread. simpl.
  destruct (checkHash_validate E (snd (getRandomGatewayURL E ps)) c rb) as [_ Hwrong].
  { by rewrite getRandomGatewayURL_validate. }
  by rewrite (Hwrong Hbad).
Qed.

Lemma fetch_wrong_hash_witness :
  fst (fetch (examples.proxyEnv (examples.response 200 "200 OK" "evil"))
             examples.proxyStore (examples.cidOf "good"))
  = (None, Some ErrWrongHash).
Proof.
  eapply (fetch_wrong_hash
            (examples.proxyEnv (examples.response 200 "200 OK" "evil"))
            examples.proxyStore (examples.cidOf "good")
            _ (examples.response 200 "200 OK" "evil") "evil");
    try reflexivity.
  vm_compute. discriminate.
Defined.

Section Reads.
Variable E : Env.

(** The store after a [fetch] differs from the one before in its random
    generator only. *)
Lemma fetch_store (ps : proxyBlockstore) (c : Cid) :
  snd (fetch E ps c) = snd (getRandomGatewayURL E ps).
Proof.
  rewrite fetch_unfold. cbv zeta.
  repeat (match goal with |- context [match ?x with _ => _ end] => destruct x end);
    reflexivity.
Qed.

Lemma Has_unfold (ps : proxyBlockstore) (c : Cid) :
  Has E ps c =
  (match snd (fst (fetch E ps c)) with
   | Some err => (false, Some err)
   | None => (bool_decide (fst (fst (fetch E ps c)) <> None), None)
   end, snd (fetch E ps c)).
Proof.
  unfold Has. destruct (fetch E ps c) as [[blk [err|]] ps']; reflexivity.
Qed.

Lemma Get_unfold (ps : proxyBlockstore) (c : Cid) :
  Get E ps c =
  (match snd (fst (fetch E ps c)) with
   | Some err => (None, Some err)
   | None => (fst (fst (fetch E ps c)), None)
   end, snd (fetch E ps c)).
Proof.
  unfold Get. destruct (fetch E ps c) as [[blk [err|]] ps']; reflexivity.
Qed.

Lemma GetSize_unfold (ps : proxyBlockstore) (c : Cid) :
  GetSize E ps c =
  (match snd (fst (fetch E ps c)) with
   | Some err => (0, Some err)
   | None => (from_option (fun b => String.length (RawData b)) 0
                (fst (fst (fetch E ps c))), None)
   end, snd (fetch E ps c)).
Proof.
  unfold GetSize. destruct (fetch E ps c) as [[blk [err|]] ps']; reflexivity.
Qed.

(** A call other than [HashOnRead] leaves the [validate] flag as it is. *)
Lemma invoke_validate (ps : proxyBlockstore) (m : call) :
  (forall enabled, m <> CallHashOnRead enabled) ->
  validate (snd (invoke E ps m)) = validate ps.
Proof.
  intros Hm.
  assert (Hf : forall c, validate (snd (fetch E ps c)) = validate ps).
  { intros c. by rewrite fetch_store, getRandomGatewayURL_validate. }
  destruct m; cbn [invoke]; try reflexivity.
  - rewrite Has_unfold. destruct (snd (fst (fetch E ps c))); apply Hf.
  - rewrite Get_unfold. destruct (snd (fst (fetch E ps c))); apply Hf.
  - rewrite GetSize_unfold. destruct (snd (fst (fetch E ps c))); apply Hf.
  - by destruct (Hm enabled).
Qed.

(** A sequence of calls without [HashOnRead(false)] keeps validation on. *)
Lemma invokeAll_validate (ms : list call) (ps : proxyBlockstore) :
  validate ps = true ->
  CallHashOnRead false ∉ ms ->
  validate (invokeAll E ps ms) = true.
Proof.
  revert ps. induction ms as [|m ms IH]; intros ps Hv Hnot; [exact Hv|].
  simpl. apply IH.
  - assert (Hcase : (exists enabled, m = CallHashOnRead enabled) \/
                    (forall enabled, m <> CallHashOnRead enabled)).
    { destruct m; try (right; discriminate). left; eauto. }
    destruct Hcase as [[[] ->]|Hne].
    + reflexivity.
    + exfalso. apply Hnot. by left.
    + by rewrite invoke_validate.
  - intros Hin. apply Hnot. by right.
Qed.

End Reads.

(** C5. Every write operation of the proxy store ([Put], [PutMany],
    [DeleteBlock], [AllKeysChan]) returns [ErrNotImplemented] and nothing
    else, whatever its input, and leaves the store as it was. *)
Theorem writes_not_implemented (E : Env) (ps : proxyBlockstore) (m : call) :
  isWrite m = true ->
  exists r, invoke E ps m = (r, ps) /\
            replyError r = Some ErrNotImplemented /\ replyEmpty r = true.
Proof.
  intros Hw. destruct m; try discriminate Hw; simpl; eexists; split_and!; reflexivity.
Qed.

Lemma writes_not_implemented_witness :
  exists r, invoke (examples.proxyEnv (examples.response 200 "200 OK" "data"))
                   examples.proxyStore
                   (CallPut (blocks.mkBlock (examples.cidOf "data") "data"))
            = (r, examples.proxyStore) /\
            replyError r = Some ErrNotImplemented /\ replyEmpty r = true.
Proof.
  apply (writes_not_implemented
           (examples.proxyEnv (examples.response 200 "200 OK" "data"))
           examples.proxyStore
           (CallPut (blocks.mkBlock (examples.cidOf "data") "data"))).
  reflexivity.
Defined.

(** C8. A store returned by [NewProxyBlockstore] validates what it reads: as
    long as [HashOnRead(false)] is not among the calls made on it, the flag
    stays on, and [Get], [Has] and [GetSize] succeed only on bytes that hash
    to the digest of the requested CID. *)
Theorem validation_on_by_default (E : Env) (urls : list string)
    (cdns : option CachedDNS) (ps : proxyBlockstore) (ms : list call) (c : Cid) :
  NewProxyBlockstore E urls cdns = Ok ps ->
  CallHashOnRead false ∉ ms ->
  validate ps = true /\
  validate (invokeAll E ps ms) = true /\
  (forall blk, fst (Get E (invokeAll E ps ms) c) = (Some blk, None) ->
     Block_Cid blk = c /\ matchesDigest (hash E) c (RawData blk)) /\
  (forall b, fst (Has E (invokeAll E ps ms) c) = (b, None) ->
     exists rb, fst (fetch E (invokeAll E ps ms) c) = (Some (blocks.mkBlock c rb), None) /\
                matchesDigest (hash E) c rb) /\
  (forall n, fst (GetSize E (invokeAll E ps ms) c) = (n, None) ->
     exists rb, fst (fetch E (invokeAll E ps ms) c) = (Some (blocks.mkBlock c rb), None) /\
                matchesDigest (hash E) c rb /\ n = String.length rb).
Proof.
  intros Hnew Hnot.
  assert (Hv : validate ps = true).
  { unfold NewProxyBlockstore in Hnew.
    destruct (Nat.eqb _ _); [discriminate|]. injection Hnew as <-. reflexivity. }
  pose proof (invokeAll_validate E ms ps Hv Hnot) as Hv'.
  set (ps' := invokeAll E ps ms) in *.
  split_and!; try assumption.
  - intros blk. rewrite Get_unfold; simpl.
    destruct (fetch E ps' c) as [[b [err|]] ps''] eqn:Hf; simpl; [discriminate|].
    intros [= ->].
    destruct (fetch_success E ps' c (Some blk)) as (req & resp & rb & _ & _ & _ & _ & Hb & Hm).
    { by rewrite Hf. }
    injection Hb as ->. simpl. split; [reflexivity|by apply Hm].
  - intros b. rewrite Has_unfold; simpl.
    destruct (fetch E ps' c) as [[blk [err|]] ps''] eqn:Hf; simpl; [discriminate|].
    intros _.
    destruct (fetch_success E ps' c blk) as (req & resp & rb & _ & _ & _ & _ & Hb & Hm).
    { by rewrite Hf. }
    exists rb. subst blk. split; [reflexivity|by apply Hm].
  - intros n. rewrite GetSize_unfold; simpl.
    destruct (fetch E ps' c) as [[blk [err|]] ps''] eqn:Hf; simpl; [discriminate|].
    intros [= <-].
    destruct (fetch_success E ps' c blk) as (req & resp & rb & _ & _ & _ & _ & Hb & Hm).
    { by rewrite Hf. }
    exists rb. subst blk. split_and!; [reflexivity|by apply Hm|reflexivity].
Qed.

Lemma validation_on_by_default_witness :
  validate (invokeAll (examples.proxyEnv (examples.response 200 "200 OK" "data"))
              examples.proxyStore
              [CallGet (examples.cidOf "data"); CallHashOnRead true;
               CallDeleteBlock (examples.cidOf "data")]) = true /\
  fst (Get (examples.proxyEnv (examples.response 200 "200 OK" "data"))
           examples.proxyStore (examples.cidOf "data"))
  = (Some (blocks.mkBlock (examples.cidOf "data") "data"), None).
Proof.
  split; [|reflexivity].
  apply (validation_on_by_default
           (examples.proxyEnv (examples.response 200 "200 OK" "data"))
           ["https://gw.example"] None examples.proxyStore
           [CallGet (examples.cidOf "data"); CallHashOnRead true;
            CallDeleteBlock (examples.cidOf "data")]
           (examples.cidOf "data")).
  - reflexivity.
  - intros Hin. repeat (apply elem_of_cons in Hin as [Hin|Hin]; [discriminate Hin|]).
    by apply elem_of_nil in Hin.
Defined.


(** A block the gateway does not have (HTTP 404) is an error of [Has], not a
    negative answer. *)
Lemma Has_not_found (E : Env) (ps : proxyBlockstore) (c : Cid)
    (req : Request) (resp : Response) :
  blockRequest E ps c = Ok req ->
  Do (net E) req = Ok resp ->
  StatusCode resp = 404%Z ->
  fst (Has E ps c)
  = (false, Some (errorString ("http error from block gateway: " +:+ Status resp))).
Proof.
  intros Hreq Hdo Hcode. rewrite Has_unfold, fetch_unfold. cbv zeta.
  rewrite Hreq, Hdo, Hcode. reflexivity.
Qed.

End gateway_facts.

(* ===================================================================== *)
(** * Properties of the fetcher *)
(* ===================================================================== *)
Module fetcher_facts.
Import verifiedfetch.

Section WithEnv.
Variable E : Env.
Variable f : fetcher.

Lemma resolvePath_immutable (fuel : nat) (p : Path) :
  Mutable p = false -> resolvePath E f fuel p = Some (NewImmutablePath p).
Proof. intros Hm. destruct fuel; simpl; by rewrite Hm. Qed.




(** What [NewImmutablePath] accepts, it wraps unchanged. *)
Lemma NewImmutablePath_ok (p : Path) (ip : ImmutablePath) :
  NewImmutablePath p = Ok ip ->
  asPath ip = p /\ Mutable p = false /\ NewImmutablePath (asPath ip) = Ok ip.
Proof.
  unfold NewImmutablePath, Mutable.
  destruct (root p) as [c|name] eqn:Hr; [|discriminate].
  intros [= <-]. simpl. by rewrite Hr.
Qed.

(** A path that [resolvePath] returns is immutable and rooted at its CID. *)
Lemma resolvePath_result (fuel : nat) (p : Path) (ip : ImmutablePath) :
  resolvePath E f fuel p = Some (Ok ip) ->
  Mutable (asPath ip) = false /\ NewImmutablePath (asPath ip) = Ok ip.
Proof.
  revert p. induction fuel as [|fuel IH]; intros p; simpl.
  - destruct (Mutable p) eqn:Hm; [discriminate|].
    intros [= H]. apply NewImmutablePath_ok in H as (-> & ? & ?). by split.
  - destruct (Mutable p) eqn:Hm.
    + destruct (resolveStep E f p) as [q|]; [apply IH|discriminate].
    + intros [= H]. apply NewImmutablePath_ok in H as (-> & ? & ?). by split.
Qed.


End WithEnv.




(** C6. Resolving an immutable path returns that path unchanged, and
    resolving what a resolution returned gives the same result again. *)
Theorem resolvePath_idempotent (E : Env) (f : fetcher) (p : Path) :
  (Mutable p = false ->
     forall fuel, exists ip,
       resolvePath E f fuel p = Some (Ok ip) /\ asPath ip = p) /\
  (forall fuel ip, resolvePath E f fuel p = Some (Ok ip) ->
     forall fuel', resolvePath E f fuel' (asPath ip) = resolvePath E f fuel p).
Proof.
  split.
  - intros Hm fuel. rewrite resolvePath_immutable by done.
    unfold NewImmutablePath, Mutable in *.
    destruct (root p) as [c|] eqn:Hr; [|discriminate]. eexists; split; reflexivity.
  - intros fuel ip Hres fuel'. rewrite Hres.
    apply resolvePath_result in Hres as [Hm Hnew].
    rewrite resolvePath_immutable by done. by rewrite Hnew.
Qed.

Lemma resolvePath_idempotent_witness :
  (exists ip, resolvePath examples.twoRecords examples.theFetcher 0
                (examples.blockPath "data") = Some (Ok ip) /\
              asPath ip = examples.blockPath "data") /\
  (forall ip, resolvePath examples.twoRecords examples.theFetcher 2
                (examples.namePath "a") = Some (Ok ip) ->
     resolvePath examples.twoRecords examples.theFetcher 0 (asPath ip)
     = resolvePath examples.twoRecords examples.theFetcher 2 (examples.namePath "a")).
Proof.
  split.
  - apply (proj1 (resolvePath_idempotent examples.twoRecords examples.theFetcher
                    (examples.blockPath "data"))). reflexivity.
  - intros ip Hip.
    apply (proj2 (resolvePath_idempotent examples.twoRecords examples.theFetcher
                    (examples.namePath "a")) 2 ip Hip 0).
Defined.

(** What holds of C10: both constructors refuse an empty configuration, a
    proxy store that was constructed has at least one gateway URL, and a
    fetcher that was constructed was given a non-empty gateway text. *)
Lemma constructors_reject_empty :
  (forall options, newFetcher EmptyString options = Err (errorString "a gateway must be set")) /\
  (forall E cdns, gateway.NewProxyBlockstore E [] cdns
                  = Err (errorString "missing gateway URLs to which to proxy")) /\
  (forall E urls cdns ps, gateway.NewProxyBlockstore E urls cdns = Ok ps ->
                          gateway.gatewayURL ps = urls /\ 1 <= length urls) /\
  (forall gw options g, newFetcher gw options = Ok g -> gw <> EmptyString).
Proof.
  split_and!.
  - reflexivity.
  - reflexivity.
  - intros E urls cdns ps. unfold gateway.NewProxyBlockstore.
    destruct urls as [|u urls]; simpl; [discriminate|].
    intros [= <-]. simpl. split; [reflexivity|lia].
  - intros gw options g Hnew ->. discriminate Hnew.
Qed.

(** C10 at the input ["/"]: the text is not empty, so the constructor accepts
    it, and trimming the slash leaves the fetcher with an empty gateway. *)
Theorem newFetcher_slash_gateway_empty :
  newFetcher "/" [] = Ok {| gateway := EmptyString; limit := 0; userAgent := EmptyString |} /\
  newFetcher "/" [withUserAgent "curl"; withLimit 10]
  = Ok {| gateway := EmptyString; limit := 10; userAgent := "curl" |}.
Proof. split; reflexivity. Qed.

(** [httpRequest] written over the request it sends. *)
Lemma httpRequest_unfold (E : Env) (f : fetcher) (p : Path) (accept : string) :
  httpRequest E f p accept =
  match fetcherRequest E f p accept with
  | Err err => Err (Errorf_w "http.NewRequest error: " err)
  | Ok req =>
      match Do (net E) req with
      | Err err => Err (Errorf_w "http.DefaultClient.Do error: " err)
      | Ok resp =>
          if (StatusCode resp >=? 400)%Z then
            match ReadAll (Body resp) with
            | Err err => Err (Errorf_w "error reading error body: " err)
            | Ok mes =>
                Err (errorString
                  ("GET " +:+ requestURL E f p +:+ " error: " +:+ Status resp
                   +:+ ": " +:+ mes))
            end
          else
            Ok (if (limit f >? 0)%Z then newLimitReadCloser (Body resp) (limit f)
                else Body resp)
      end
  end.
Proof.
  unfold httpRequest, fetcherRequest, requestURL.
  destruct (NewRequestWithContext _ _ _); reflexivity.
Qed.




Section Ingestion.
Variable E : Env.

(** [Next] on a frame whose bytes match its CID. *)
Lemma Next_verified (c : Cid) (data : bytes) (rest : list Frame) (flt : option error) :
  matchesDigest (hash E) c data ->
  Next (hash E) (debug E) (Cid_String E) (mkBlockReader (Framed c data :: rest) flt)
  = ((Some (blocks.mkBlock c data), None), mkBlockReader rest flt).
Proof.
  intros Hm. unfold Next; simpl.
  rewrite (proj2 (Sum_matches _ _ _) Hm). unfold Equals.
  rewrite bool_decide_eq_true_2 by done. simpl.
  by rewrite NewBlockWithCid_matches.
Qed.

(** [Next] on a frame whose bytes do not match its CID: no block, and an
    error that is not the end of the stream. *)
Lemma Next_rejected (c : Cid) (data : bytes) (rest : list Frame) (flt : option error) :
  ~ matchesDigest (hash E) c data ->
  exists e, e <> EOF /\
    Next (hash E) (debug E) (Cid_String E) (mkBlockReader (Framed c data :: rest) flt)
    = ((None, Some e), mkBlockReader rest flt).
Proof.
  intros Hm. unfold Next; simpl.
  destruct (Sum (hash E) (Cid_Prefix c) data) as [hashed|e] eqn:Hsum.
  - unfold Equals. case_bool_decide as Heq.
    + subst hashed. by apply Sum_matches in Hsum.
    + simpl. eexists; split; [|reflexivity]. discriminate.
  - exists e. split; [|reflexivity]. by eapply Sum_error_not_EOF.
Qed.




End Ingestion.

(** C7. On an archive of the blocks [A, B, C] in which [A] matches its CID
    and [B] does not, ingestion stores [A], stops at [B] with an error and
    the operation fails; [C] is left unread, [B]'s bytes are not stored, and
    the store still holds [A] when the operation returns. *)
Theorem ingest_aborts_at_bad_block (E : Env) (r : ReadCloser)
    (cA cB cC : Cid) (dA dB dC : bytes) :
  decodeCar E (content r) = Ok [Framed cA dA; Framed cB dB; Framed cC dC] ->
  matchesDigest (hash E) cA dA ->
  ~ matchesDigest (hash E) cB dB ->
  exists err,
    ingest E r = Some (Some err, mkBlockReader [Framed cC dC] (readFault r),
                       {[cA := dA]}) /\
    ({[cA := dA]} : gmap Cid bytes) !! cA = Some dA /\
    ({[cA := dA]} : gmap Cid bytes) !! cB <> Some dB /\
    forall imPath, carToFileStream E r imPath = Some (Err err).
Proof.
  intros Hdec HA HB.
  destruct (Next_rejected E cB dB [Framed cC dC] (readFault r) HB) as (e & HeEOF & HnextB).
  exists (Errorf_s "error reading block from car: " e).
  assert (Hing : ingest E r
                 = Some (Some (Errorf_s "error reading block from car: " e),
                         mkBlockReader [Framed cC dC] (readFault r), {[cA := dA]})).
  { unfold ingest, NewBlockReader. rewrite Hdec.
    cbn [pending length addBlocks]. rewrite (Next_verified E) by done.
    rewrite bool_decide_eq_false_2 by (intros [? _]; done).
    unfold blockstore.Put; cbn [Block_Cid RawData]. rewrite lookup_empty, insert_empty.
    rewrite HnextB.
    rewrite bool_decide_eq_true_2; [reflexivity|].
    split; [discriminate|congruence]. }
  split_and!.
  - exact Hing.
  - apply lookup_singleton_eq.
  - destruct (decide (cA = cB)) as [<-|Hne].
    + rewrite lookup_singleton_eq. intros [= ->]. by apply HB.
    + by rewrite lookup_singleton_ne.
  - intros imPath. unfold carToFileStream. by rewrite Hing.
Qed.

Lemma ingest_aborts_at_bad_block_witness :
  exists err,
    ingest examples.badArchive (mkBody "archive" None)
    = Some (Some err, mkBlockReader [Framed (examples.cidOf "C") "C"] None,
            {[examples.cidOf "A" := "A"]}) /\
    carToFileStream examples.badArchive (mkBody "archive" None)
      (mkImmutablePath (examples.blockPath "A") (examples.cidOf "A")) = Some (Err err).
Proof.
  destruct (ingest_aborts_at_bad_block examples.badArchive (mkBody "archive" None)
              (examples.cidOf "A") (examples.cidOf "B") (examples.cidOf "C")
              "A" "forged" "C") as (err & Hing & _ & _ & Hfail).
  - reflexivity.
  - reflexivity.
  - vm_compute. discriminate.
  - exists err. split; [exact Hing|apply Hfail].
Defined.

End fetcher_facts.

(* ===================================================================== *)
(** * Properties of a subscription *)
(* ===================================================================== *)
Module notifications_facts.
Import notifications.

Lemma toStrings_keys (keys : list Key) : toStrings keys = keys.
Proof.
  unfold toStrings.
  assert (H : forall acc : list string,
            foldl (fun strs key => (strs ++ [key])%list) acc keys = (acc ++ keys)%list).
  { induction keys as [|k keys IH]; intros acc; simpl.
    - by rewrite app_nil_r.
    - rewrite IH. by rewrite <- app_assoc. }
  apply (H []).
Qed.

Lemma invariant_Subscribe (keys : list Key) : invariant keys (Subscribe keys).
Proof.
  split; simpl; try done.
  - intros t. by rewrite toStrings_keys.
  - intros b Hb. by apply elem_of_nil in Hb.
  - intros b Hb. by apply elem_of_nil in Hb.
  - lia.
Qed.

Lemma invariant_retire (keys : list Key) (s : state) :
  invariant keys s ->
  length (delivered s) = length keys \/ ctxDone s = true \/ valuesClosed s = true ->
  invariant keys (retire s).
Proof.
  intros [] Hwhy. split; simpl; try done.
  intros t Ht. by apply elem_of_nil in Ht.
Qed.

Lemma invariant_step (keys : list Key) (s s' : state) (e : event) :
  invariant keys s -> step s e = Some s' -> invariant keys s'.
Proof.
  intros Hinv Hstep. pose proof Hinv as [Hcap Htop Hval Hdel Hcnt Hbuf Hgo].
  destruct e; simpl in Hstep.
  - (* Publish *)
    unfold Publish, Pub in Hstep.
    case_bool_decide as Hin; [|by injection Hstep as <-].
    case_bool_decide; [|by injection Hstep as <-]. injection Hstep as <-.
    split; simpl; try done.
    intros b [Hb|Hb%list_elem_of_singleton]%elem_of_app; [by apply Hval|].
    subst b. by apply Htop.
  - (* cancellation *)
    injection Hstep as <-. split; simpl; try done.
    destruct (goroutine s); try done. destruct Hgo as (? & ? & ?). auto.
  - (* Shutdown *)
    injection Hstep as <-. split; simpl; try done.
    + intros t Ht. by apply elem_of_nil in Ht.
    + destruct (goroutine s); try done. destruct Hgo as (? & ? & ?). auto.
  - (* the caller reads *)
    destruct (blocksCh s) as [|b bs] eqn:Hbs; [discriminate|]. injection Hstep as <-.
    split; simpl; try done. simpl in Hbuf. lia.
  - (* end of the loop *)
    destruct (goroutine s) as [[|k rest]| |] eqn:Hg; try discriminate.
    injection Hstep as <-. apply invariant_retire; [done|].
    left. simpl in Hgo. lia.
  - (* ctx.Done() *)
    destruct (goroutine s) as [[|k rest]| |] eqn:Hg; try discriminate;
      (destruct (ctxDone s) eqn:Hctx; [|discriminate]);
      injection Hstep as <-; apply invariant_retire; auto.
  - (* receive from valuesCh *)
    destruct (goroutine s) as [[|k rest]| |] eqn:Hg; try discriminate.
    destruct (valuesCh s) as [|b vs] eqn:Hvs.
    + destruct (valuesClosed s) eqn:Hcl; [|discriminate].
      injection Hstep as <-. apply invariant_retire; auto.
    + injection Hstep as <-. split; simpl; try done.
      * intros b' Hb'. apply Hval. by right.
      * simpl in Hgo. split_and!; [lia| |tauto]. apply Hval. by left.
  - (* send on blocksCh *)
    destruct (goroutine s) as [| rest b |] eqn:Hg; try discriminate.
    case_bool_decide; [|discriminate]. injection Hstep as <-.
    destruct Hgo as (Hlen & Hkey & Hopen).
    split; simpl; try done.
    + intros b' [Hb'|Hb'%list_elem_of_singleton]%elem_of_app; [by apply Hdel|by subst].
    + rewrite length_app; simpl. lia.
    + rewrite !length_app; simpl. lia.
    + rewrite length_app; simpl. split; [lia|done].
Qed.

Lemma invariant_run (keys : list Key) (es : list event) : forall (s s' : state),
  invariant keys s -> run s es = Some s' -> invariant keys s'.
Proof.
  induction es as [|e es IH]; intros s s' Hinv Hrun; simpl in Hrun.
  - by injection Hrun as <-.
  - destruct (step s e) as [s1|] eqn:Hstep; [|discriminate].
    eapply IH; [|exact Hrun]. by eapply invariant_step.
Qed.

(** A subscription is retired exactly when its goroutine has returned. *)
Lemma retired_Returned (keys : list Key) (s : state) :
  invariant keys s -> (retired s = true <-> goroutine s = Returned).
Proof.
  intros [_ _ _ _ _ _ Hgo]. unfold retired.
  destruct (goroutine s) as [rest|rest block|].
  - destruct Hgo as [_ ->]. split; discriminate.
  - destruct Hgo as (_ & _ & ->). split; discriminate.
  - destruct Hgo as (-> & -> & _). split; reflexivity.
Qed.

(** Once the goroutine has returned, nothing more is delivered. *)
Lemma step_Returned (s s' : state) (e : event) :
  goroutine s = Returned -> step s e = Some s' ->
  goroutine s' = Returned /\ delivered s' = delivered s.
Proof.
  intros Hg Hstep. destruct e; simpl in Hstep; rewrite ?Hg in Hstep; try discriminate.
  - unfold Publish, Pub in Hstep.
    repeat case_bool_decide; by injection Hstep as <-.
  - by injection Hstep as <-.
  - by injection Hstep as <-.
  - destruct (blocksCh s); [discriminate|]. by injection Hstep as <-.
Qed.

Lemma run_Returned (es : list event) : forall (s s' : state),
  goroutine s = Returned -> run s es = Some s' ->
  goroutine s' = Returned /\ delivered s' = delivered s.
Proof.
  induction es as [|e es IH]; intros s s' Hg Hrun; simpl in Hrun.
  - by injection Hrun as <-.
  - destruct (step s e) as [s1|] eqn:Hstep; [|discriminate].
    destruct (step_Returned s s1 e Hg Hstep) as [Hg1 Hd1].
    destruct (IH s1 s' Hg1 Hrun) as [? ?]. split; congruence.
Qed.

(** The send on [blocksCh] never waits: the channel has room for [len(keys)]
    blocks and no more than that are ever sent. *)
Lemma send_never_blocks (keys : list Key) (es : list event) (s : state)
    (rest : list Key) (block : Block) :
  run (Subscribe keys) es = Some s ->
  goroutine s = AtSend rest block ->
  is_Some (step s GoSend).
Proof.
  intros Hrun Hg.
  pose proof (invariant_run keys es _ _ (invariant_Subscribe keys) Hrun)
    as [Hcap _ _ _ _ Hbuf Hgo].
  rewrite Hg in Hgo. destruct Hgo as (Hlen & _ & _).
  simpl. rewrite Hg. rewrite bool_decide_eq_true_2 by lia. by eexists.
Qed.

(** C4, as the code has it.  A subscription for [n] keys delivers at most [n]
    blocks, each published under one of its keys; it retires only when [n]
    blocks have been delivered, when its context is done or when the bus has
    shut down; once [n] blocks have been delivered or the context is done,
    retiring is a move open to it; and after it has retired nothing more is
    delivered. *)
Theorem subscription_delivery (keys : list Key) (es : list event) (s : state) :
  run (Subscribe keys) es = Some s ->
  length (delivered s) <= length keys /\
  (forall b, b ∈ delivered s -> Block_Key b ∈ keys) /\
  (retired s = true ->
     length (delivered s) = length keys \/ ctxDone s = true \/ valuesClosed s = true) /\
  (retired s = false -> length (delivered s) = length keys ->
     step s GoLoopEnd = Some (retire s)) /\
  (retired s = false -> ctxDone s = true ->
     step s GoLoopEnd = Some (retire s) \/ step s GoCtxDone = Some (retire s)) /\
  retired (retire s) = true /\
  (retired s = true ->
     forall es' s', run s es' = Some s' ->
       retired s' = true /\ delivered s' = delivered s).
Proof.
  intros Hrun.
  pose proof (invariant_run keys es _ _ (invariant_Subscribe keys) Hrun) as Hinv.
  pose proof (retired_Returned keys s Hinv) as Hret.
  pose proof Hinv as [Hcap Htop Hval Hdel Hcnt Hbuf Hgo].
  split_and!.
  - exact Hcnt.
  - exact Hdel.
  - intros Hr. apply Hret in Hr. rewrite Hr in Hgo. tauto.
  - intros Hr Hn. simpl. destruct (goroutine s) as [[|k rest]|rest b|] eqn:Hg.
    + reflexivity.
    + simpl in Hgo. lia.
    + lia.
    + rewrite (proj2 Hret) in Hr by done. discriminate.
  - intros Hr Hctx. simpl. rewrite Hctx.
    destruct (goroutine s) as [[|k rest]|rest b|] eqn:Hg; auto.
    rewrite (proj2 Hret) in Hr by done. discriminate.
  - reflexivity.
  - intros Hr es' s' Hrun'. apply Hret in Hr.
    destruct (run_Returned es' s s' Hr Hrun') as [Hg' Hd']. split; [|exact Hd'].
    apply (retired_Returned keys s'); [|exact Hg'].
    by eapply invariant_run.
Qed.

Lemma subscription_delivery_witness :
  exists s,
    run (Subscribe ["k1"; "k2"])
        [EvPublish examples.blockK1; GoReceive; GoSend; EvCancel; GoCtxDone] = Some s /\
    length (delivered s) <= 2 /\
    (retired s = true ->
       length (delivered s) = 2 \/ ctxDone s = true \/ valuesClosed s = true).
Proof.
  eexists. split; [reflexivity|].
  destruct (subscription_delivery ["k1"; "k2"]
              [EvPublish examples.blockK1; GoReceive; GoSend; EvCancel; GoCtxDone]
              _ eq_refl) as (Hcount & _ & Hwhy & _).
  split; [exact Hcount|exact Hwhy].
Defined.

(** C4, as the specification states it, fails: a subscription for the keys [k1] and [k2]
    on which the same block of key [k1] is published twice delivers that
    block twice, and retires after these two blocks although nothing arrived
    for [k2] and its context is not done. *)
Lemma subscription_duplicate_counterexample :
  exists s,
    run (Subscribe ["k1"; "k2"])
        [EvPublish examples.blockK1; EvPublish examples.blockK1;
         GoReceive; GoSend; GoReceive; GoSend; GoLoopEnd] = Some s /\
    delivered s = [examples.blockK1; examples.blockK1] /\
    ~ NoDup (Block_Key <$> delivered s) /\
    retired s = true /\
    ("k2" ∉ Block_Key <$> delivered s) /\
    ctxDone s = false.
Proof.
  eexists. split; [reflexivity|]. simpl. split_and!; try reflexivity.
  - intros Hnd. apply NoDup_cons in Hnd as [Hnotin _]. apply Hnotin. by left.
  - intros Hin. repeat (apply elem_of_cons in Hin as [Hin|Hin]; [discriminate Hin|]).
    by apply elem_of_nil in Hin.
Qed.

End notifications_facts.

(* ===================================================================== *)
(** * More on the proxy block store *)
(* ===================================================================== *)
Module gateway_more.
Import gateway.

Section WithEnv.
Variable E : Env.

(** Drawing a gateway changes the random generator and nothing else. *)
Lemma getRandomGatewayURL_fields (ps : proxyBlockstore) :
  gatewayURL (snd (getRandomGatewayURL E ps)) = gatewayURL ps /\
  httpClient (snd (getRandomGatewayURL E ps)) = httpClient ps /\
  validate (snd (getRandomGatewayURL E ps)) = validate ps.
Proof. unfold getRandomGatewayURL. by destruct (Intn E _ _). Qed.

Lemma invoke_fields (ps : proxyBlockstore) (m : call) :
  gatewayURL (snd (invoke E ps m)) = gatewayURL ps /\
  httpClient (snd (invoke E ps m)) = httpClient ps /\
  validate (snd (invoke E ps m)) =
    match m with CallHashOnRead b => b | _ => validate ps end.
Proof.
  pose proof (getRandomGatewayURL_fields ps) as Hf.
  destruct m; cbn [invoke]; try done.
  - rewrite gateway_facts.Has_unfold.
    destruct (snd (fst (fetch E ps c))); cbn [snd]; by rewrite gateway_facts.fetch_store.
  - rewrite gateway_facts.Get_unfold.
    destruct (snd (fst (fetch E ps c))); cbn [snd]; by rewrite gateway_facts.fetch_store.
  - rewrite gateway_facts.GetSize_unfold.
    destruct (snd (fst (fetch E ps c))); cbn [snd]; by rewrite gateway_facts.fetch_store.
Qed.

(** The request for a block does not depend on the [validate] flag. *)
Lemma blockRequest_HashOnRead (ps : proxyBlockstore) (c : Cid) (enabled : bool) :
  blockRequest E (HashOnRead ps enabled) c = blockRequest E ps c.
Proof.
  unfold blockRequest, getRandomGatewayURL, HashOnRead; simpl.
  by destruct (Intn E _ _).
Qed.

End WithEnv.

(** X1. With a generator that draws below its bound, the gateway a request
    goes to is one of the configured ones, and drawing it leaves the list,
    the client and the [validate] flag as they were. *)
Theorem getRandomGatewayURL_configured (E : Env) (ps : proxyBlockstore) :
  (forall r n, 0 < n -> fst (Intn E r n) < n) ->
  gatewayURL ps <> [] ->
  fst (getRandomGatewayURL E ps) ∈ gatewayURL ps /\
  gatewayURL (snd (getRandomGatewayURL E ps)) = gatewayURL ps /\
  httpClient (snd (getRandomGatewayURL E ps)) = httpClient ps /\
  validate (snd (getRandomGatewayURL E ps)) = validate ps.
Proof.
  intros Hrange Hne. split; [|apply getRandomGatewayURL_fields].
  unfold getRandomGatewayURL.
  assert (Hpos : 0 < length (gatewayURL ps)).
  { destruct (gatewayURL ps); [done|simpl; lia]. }
  specialize (Hrange (rand ps) _ Hpos).
  destruct (Intn E (rand ps) (length (gatewayURL ps))) as [i r]; simpl in *.
  destruct (lookup_lt_is_Some_2 _ _ Hrange) as [url Hurl].
  rewrite Hurl. simpl. by eapply list_elem_of_lookup_2.
Qed.

Lemma getRandomGatewayURL_configured_witness :
  fst (getRandomGatewayURL (examples.proxyEnv (examples.response 200 "200 OK" "data"))
         examples.proxyStore) ∈ ["https://gw.example"].
Proof.
  apply (getRandomGatewayURL_configured
           (examples.proxyEnv (examples.response 200 "200 OK" "data"))
           examples.proxyStore).
  - intros r n Hn. simpl. lia.
  - discriminate.
Defined.

(** X2. Whatever calls are made on a store, its gateway list and its client
    stay as constructed, and its [validate] flag is the argument of the last
    [HashOnRead] call (the initial flag when there was none). *)
Theorem invokeAll_configuration (E : Env) (ms : list call) (ps : proxyBlockstore) :
  gatewayURL (invokeAll E ps ms) = gatewayURL ps /\
  httpClient (invokeAll E ps ms) = httpClient ps /\
  validate (invokeAll E ps ms) = lastHashOnRead (validate ps) ms.
Proof.
  revert ps. induction ms as [|m ms IH]; intros ps; [done|].
  cbn [invokeAll]. destruct (IH (snd (invoke E ps m))) as (Hg & Hc & Hv).
  destruct (invoke_fields E ps m) as (Hg1 & Hc1 & Hv1).
  rewrite Hg, Hc, Hv, Hg1, Hc1, Hv1. unfold lastHashOnRead. cbn [foldl].
  split_and!; [done|done|by destruct m].
Qed.

(** X3. After [HashOnRead(false)], and with the debug flag of the block
    package off, [Get] returns the body of a 200 response as the block,
    whether or not its bytes match the CID. *)
Theorem HashOnRead_false_skips_validation (E : Env) (ps : proxyBlockstore) (c : Cid)
    (req : Request) (resp : Response) (rb : bytes) :
  debug E = false ->
  blockRequest E ps c = Ok req ->
  Do (net E) req = Ok resp ->
  StatusCode resp = StatusOK ->
  ReadAll (Body resp) = Ok rb ->
  fst (Get E (HashOnRead ps false) c) = (Some (blocks.mkBlock c rb), None).
Proof.
  intros Hdbg Hreq Hdo Hcode Hread.
  rewrite gateway_facts.Get_unfold, gateway_facts.fetch_unfold. cbv zeta.
  rewrite blockRequest_HashOnRead, Hreq, Hdo, Hcode, Hread.
  unfold checkHash. rewrite gateway_facts.getRandomGatewayURL_validate.
  simpl. unfold NewBlockWithCid. by rewrite Hdbg.
Qed.

Lemma HashOnRead_false_skips_validation_witness :
  fst (Get (examples.proxyEnv (examples.response 200 "200 OK" "evil"))
           (HashOnRead examples.proxyStore false) (examples.cidOf "good"))
  = (Some (blocks.mkBlock (examples.cidOf "good") "evil"), None).
Proof.
  apply (HashOnRead_false_skips_validation
           (examples.proxyEnv (examples.response 200 "200 OK" "evil"))
           examples.proxyStore (examples.cidOf "good")
           (mkRequest "GET" "https://gw.example/ipfs/bgood?format=raw"
              {["Accept" := "application/vnd.ipld.raw"]})
           (examples.response 200 "200 OK" "evil") "evil"); reflexivity.
Defined.

(** X4. The three read operations agree: they fail together, with the same
    error and the zero value, and leave the same store behind; when [Get]
    returns a block it is a block for the requested CID, [GetSize] returns
    the length of its bytes and [Has] returns true. *)
Theorem reads_agree (E : Env) (ps : proxyBlockstore) (c : Cid) :
  snd (Get E ps c) = snd (Has E ps c) /\
  snd (GetSize E ps c) = snd (Has E ps c) /\
  (forall err,
     snd (fst (Get E ps c)) = Some err <->
     fst (Get E ps c) = (None, Some err) /\
     fst (GetSize E ps c) = (0, Some err) /\
     fst (Has E ps c) = (false, Some err)) /\
  (forall blk,
     fst (Get E ps c) = (Some blk, None) <->
     Block_Cid blk = c /\
     fst (GetSize E ps c) = (String.length (RawData blk), None) /\
     fst (Has E ps c) = (true, None) /\
     fst (fst (fetch E ps c)) = Some blk).
Proof.
  rewrite gateway_facts.Get_unfold, gateway_facts.GetSize_unfold,
    gateway_facts.Has_unfold. cbn [fst snd].
  destruct (fetch E ps c) as [[blk [err|]] ps'] eqn:Hf; cbn [fst snd].
  - split_and!; try done.
    + intros err'. split; [by intros [= <-]|by intros ([= <-] & _)].
    + intros blk'. split; [discriminate|]. by intros (_ & [=] & _).
  - destruct (gateway_facts.fetch_success E ps c blk)
      as (req & resp & rb & _ & _ & _ & _ & -> & _); [by rewrite Hf|].
    rewrite bool_decide_eq_true_2 by discriminate.
    split_and!; try done.
    + intros err'. split; [discriminate|]. by intros ([=] & _).
    + intros blk'. split.
      * by intros [= <-].
      * by intros (_ & _ & _ & [= <-]).
Qed.

End gateway_more.

(* ===================================================================== *)
(** * More on the fetcher *)
(* ===================================================================== *)
Module fetcher_more.
Import verifiedfetch.

Lemma substring_0_length (n : nat) (s : string) :
  String.length (substring 0 n s) = Nat.min n (String.length s).
Proof.
  revert s. induction n as [|n IH]; intros [|a s]; simpl; try reflexivity.
  by rewrite IH.
Qed.

Lemma substring_0_prefix (n : nat) (s : string) :
  exists t, s = substring 0 n s +:+ t.
Proof.
  revert s. induction n as [|n IH]; intros [|a s]; simpl.
  - by exists EmptyString.
  - by exists (String a s).
  - by exists EmptyString.
  - destruct (IH s) as [t Ht]. exists t.
    change (String a s = String a (substring 0 n s +:+ t)). by rewrite <- Ht.
Qed.

(** What a reader limited to [limit] bytes holds is a beginning of the
    stream, of at most [limit] bytes. *)
Lemma limited_reader (rc : ReadCloser) (limit : Z) :
  String.length (content (newLimitReadCloser rc limit)) <= Z.to_nat limit /\
  exists t, content rc = content (newLimitReadCloser rc limit) +:+ t.
Proof.
  unfold newLimitReadCloser.
  destruct (limit <=? Z.of_nat (String.length (content rc)))%Z eqn:Hle.
  - cbn [content]. rewrite substring_0_length.
    split; [lia|apply substring_0_prefix].
  - apply Z.leb_gt in Hle. split; [lia|].
    exists EmptyString. by rewrite append_nil_r.
Qed.

(** X5. A reader limited to [limit] bytes yields a prefix of the stream of at
    most [limit] bytes; a stream shorter than the limit is left as it is, and
    a stream cut at the limit ends cleanly after exactly [limit] bytes,
    whatever error lay behind them. *)
Theorem newLimitReadCloser_bound (rc : ReadCloser) (limit : Z) :
  String.length (content (newLimitReadCloser rc limit)) <= Z.to_nat limit /\
  (exists t, content rc = content (newLimitReadCloser rc limit) +:+ t) /\
  ((Z.of_nat (String.length (content rc)) < limit)%Z ->
     newLimitReadCloser rc limit = rc) /\
  ((0 <= limit <= Z.of_nat (String.length (content rc)))%Z ->
     ReadAll (newLimitReadCloser rc limit)
     = Ok (substring 0 (Z.to_nat limit) (content rc)) /\
     String.length (content (newLimitReadCloser rc limit)) = Z.to_nat limit).
Proof.
  unfold newLimitReadCloser.
  destruct (limit <=? Z.of_nat (String.length (content rc)))%Z eqn:Hle.
  - apply Z.leb_le in Hle. cbn [content]. rewrite substring_0_length.
    split_and!; [lia|apply substring_0_prefix|lia|].
    intros [Hpos _]. split; [reflexivity|lia].
  - apply Z.leb_gt in Hle. split_and!; [lia| |done|lia].
    exists EmptyString. by rewrite append_nil_r.
Qed.

Lemma newLimitReadCloser_bound_witness :
  ReadAll (newLimitReadCloser (mkBody "0123456789" (Some (errorString "reset"))) 4)
  = Ok (substring 0 (Z.to_nat 4) "0123456789") /\
  String.length (content (newLimitReadCloser
                            (mkBody "0123456789" (Some (errorString "reset"))) 4))
  = Z.to_nat 4.
Proof.
  apply (newLimitReadCloser_bound
           (mkBody "0123456789" (Some (errorString "reset"))) 4).
  simpl. lia.
Defined.

(** X6. A request that [httpRequest] answers with a stream was a GET to the
    gateway followed by the text of the path, carried the given [Accept]
    header, carried a [User-Agent] header exactly when the fetcher has a user
    agent, and got a status below 400; with a positive limit the stream
    holds at most that many bytes, without one it is the body itself. *)
Theorem httpRequest_success (E : Env) (f : fetcher) (p : Path) (accept : string)
    (rc : ReadCloser) :
  httpRequest E f p accept = Ok rc ->
  exists req resp,
    Do (net E) req = Ok resp /\
    Method req = "GET" /\
    URL req = gateway f +:+ Path_String (Cid_String E) p /\
    Header req !! "Accept" = Some accept /\
    Header req !! "User-Agent"
      = (if String.eqb (userAgent f) EmptyString then None else Some (userAgent f)) /\
    (StatusCode resp < 400)%Z /\
    ((0 < limit f)%Z ->
       String.length (content rc) <= Z.to_nat (limit f) /\
       exists t, content (Body resp) = content rc +:+ t) /\
    ((limit f <= 0)%Z -> rc = Body resp).
Proof.
  rewrite fetcher_facts.httpRequest_unfold.
  destruct (fetcherRequest E f p accept) as [req|] eqn:Hreq; [|discriminate].
  destruct (Do (net E) req) as [resp|] eqn:Hdo; [|discriminate].
  destruct (StatusCode resp >=? 400)%Z eqn:Hcode.
  { destruct (ReadAll (Body resp)); discriminate. }
  intros [= <-]. exists req, resp.
  unfold fetcherRequest, requestURL, NewRequestWithContext in Hreq.
  destruct (urlError (net E) _); [discriminate|]. injection Hreq as <-.
  split_and!.
  - exact Hdo.
  - by destruct (negb _).
  - by destruct (negb _).
  - destruct (negb _); cbn [Header Header_Set].
    + rewrite lookup_insert_ne by discriminate. apply lookup_insert_eq.
    + apply lookup_insert_eq.
  - destruct (String.eqb (userAgent f) EmptyString); cbn [negb Header Header_Set].
    + rewrite lookup_insert_ne by discriminate. apply lookup_empty.
    + apply lookup_insert_eq.
  - destruct (Z.geb_spec (StatusCode resp) 400); [discriminate|lia].
  - intros Hpos. rewrite (proj2 (Z.gtb_lt _ _)) by lia.
    destruct (limited_reader (Body resp) (limit f)) as (Hlen & Hpre).
    by split.
  - intros Hnon. destruct (Z.gtb_spec (limit f) 0); [lia|reflexivity].
Qed.

Lemma httpRequest_success_witness :
  exists req resp,
    Do (net examples.twoRecords) req = Ok resp /\
    URL req = "https://gw.example/ipns/a" /\
    Header req !! "Accept" = Some "application/vnd.ipfs.ipns-record" /\
    Header req !! "User-Agent" = None.
Proof.
  destruct (httpRequest_success examples.twoRecords examples.theFetcher
              (examples.namePath "a") "application/vnd.ipfs.ipns-record"
              (mkBody "/ipns/b" None) eq_refl)
    as (req & resp & Hdo & _ & Hurl & Hacc & Hua & _).
  exists req, resp. split_and!; [exact Hdo|exact Hurl|exact Hacc|exact Hua].
Defined.

(** X7. [resolveIPNS] yields a path only from a record that was read within
    the size limit, unmarshalled and validated against the name: the path is
    the target of that record. *)
Theorem resolveIPNS_validated (E : Env) (f : fetcher) (name : Name) (p : Path) :
  resolveIPNS E f name = Ok p ->
  exists raw rec,
    String.length raw <= Z.to_nat (MaxRecordSize E) /\
    UnmarshalRecord E raw = Ok rec /\
    ValidateWithName E rec name = None /\
    NewPath E (target rec) = Ok p.
Proof.
  unfold resolveIPNS.
  destruct (httpRequest E f (AsPath name) _) as [rc|]; [|discriminate].
  destruct (limited_reader rc (MaxRecordSize E)) as (Hlen & _).
  unfold ReadAll.
  destruct (readFault (newLimitReadCloser rc (MaxRecordSize E))); [discriminate|].
  destruct (UnmarshalRecord E _) as [rec|] eqn:Hrec; [|discriminate].
  destruct (ValidateWithName E rec name) eqn:Hval; [discriminate|].
  intros Hp. eauto 10.
Qed.

Lemma resolveIPNS_validated_witness :
  exists raw rec,
    String.length raw <= Z.to_nat 10240 /\
    UnmarshalRecord examples.twoRecords raw = Ok rec /\
    ValidateWithName examples.twoRecords rec (mkName "a") = None /\
    NewPath examples.twoRecords (target rec) = Ok (examples.namePath "b").
Proof.
  apply (resolveIPNS_validated examples.twoRecords examples.theFetcher
           (mkName "a") (examples.namePath "b")).
  reflexivity.
Defined.

(** A record that does not validate stops the resolution of its name with
    the error of the validation, whatever its target is. *)
Lemma resolveIPNS_invalid (E : Env) (f : fetcher) (name : Name)
    (rc : ReadCloser) (raw : bytes) (rec : Record_) (err : error) :
  httpRequest E f (AsPath name) "application/vnd.ipfs.ipns-record" = Ok rc ->
  ReadAll (newLimitReadCloser rc (MaxRecordSize E)) = Ok raw ->
  UnmarshalRecord E raw = Ok rec ->
  ValidateWithName E rec name = Some err ->
  resolveIPNS E f name = Err err.
Proof.
  intros Hreq Hread Hrec Hval. unfold resolveIPNS.
  by rewrite Hreq, Hread, Hrec, Hval.
Qed.

(** What [TrimRight] cuts off consists of characters of the cutset. *)
Lemma TrimRight_split (s cutset : string) :
  exists t, s = TrimRight s cutset +:+ t /\ allIn t cutset = true.
Proof.
  induction s as [|a s (t & Hs & Ht)]; [by exists EmptyString|].
  cbn [TrimRight]. destruct (TrimRight s cutset) as [|b r] eqn:Hr.
  - destruct (inCutset a cutset) eqn:Ha.
    + exists (String a t). split; [by rewrite Hs at 1|]. simpl. by rewrite Ha, Ht.
    + exists t. split; [by rewrite Hs at 1|done].
  - exists t. split; [|done].
    change (String a s = String a (String b r +:+ t)). by rewrite <- Hs.
Qed.

(** What [TrimRight] leaves does not end in a character of the cutset. *)
Lemma TrimRight_last (s cutset : string) (a : ascii) :
  lastChar (TrimRight s cutset) = Some a -> inCutset a cutset = false.
Proof.
  induction s as [|b s IH]; [discriminate|].
  cbn [TrimRight]. destruct (TrimRight s cutset) as [|b' r] eqn:Hr.
  - destruct (inCutset b cutset) eqn:Hb; [discriminate|]. by intros [= <-].
  - exact IH.
Qed.

(** The options are applied one after the other, and the first error ends
    the construction. *)
Lemma applyOptions_app (f : fetcher) (os1 os2 : list fetcherOption) :
  applyOptions f (os1 ++ os2) =
  match applyOptions f os1 with
  | Ok g => applyOptions g os2
  | Err err => Err err
  end.
Proof.
  revert f. induction os1 as [|o os1 IH]; intros f; [done|].
  cbn [app applyOptions]. destruct (o f) as [g [err|]]; [done|apply IH].
Qed.

Lemma applyOptions_gateway (os : list fetcherOption) : forall (f g : fetcher),
  Forall keepsGateway os -> applyOptions f os = Ok g -> gateway g = gateway f.
Proof.
  induction os as [|o os IH]; intros f g Hkeep; cbn [applyOptions].
  - by intros [= <-].
  - apply Forall_cons in Hkeep as [Ho Hos].
    specialize (Ho f). destruct (o f) as [h [err|]]; [discriminate|].
    intros Hg. rewrite (IH h g Hos Hg). exact Ho.
Qed.

(** X8. The gateway of a constructed fetcher is the given text without its
    trailing slashes: the given text is the stored gateway followed by
    slashes only, and the stored gateway does not end in a slash (options
    that leave the gateway alone, as the two of the program do). *)
Theorem newFetcher_gateway_trimmed (gw : string) (options : list fetcherOption)
    (f : fetcher) :
  Forall keepsGateway options ->
  newFetcher gw options = Ok f ->
  gw <> EmptyString /\
  (exists slashes, gw = gateway f +:+ slashes /\ allIn slashes "/" = true) /\
  lastChar (gateway f) <> Some "/"%char.
Proof.
  intros Hkeep. unfold newFetcher.
  destruct (String.eqb_spec gw EmptyString) as [->|Hne]; [discriminate|].
  intros Hf. apply applyOptions_gateway in Hf; [|done]. cbn [gateway] in Hf.
  rewrite Hf. split_and!; [done|apply TrimRight_split|].
  intros Hlast. by apply TrimRight_last in Hlast.
Qed.

Lemma keepsGateway_withUserAgent (userAgent : string) :
  keepsGateway (withUserAgent userAgent).
Proof. by intros f. Qed.

Lemma keepsGateway_withLimit (limit : Z) : keepsGateway (withLimit limit).
Proof. by intros f. Qed.

Lemma newFetcher_gateway_trimmed_witness :
  exists f,
    newFetcher "https://gw.example//" [withUserAgent "curl"; withLimit 5] = Ok f /\
    (exists slashes, "https://gw.example//" = gateway f +:+ slashes /\
                     allIn slashes "/" = true) /\
    lastChar (gateway f) <> Some "/"%char.
Proof.
  eexists. split; [reflexivity|].
  apply (newFetcher_gateway_trimmed "https://gw.example//"
           [withUserAgent "curl"; withLimit 5]).
  - constructor; [apply keepsGateway_withUserAgent|].
    constructor; [apply keepsGateway_withLimit|constructor].
  - reflexivity.
Defined.

(** X9. The options of [newFetcher] are applied in the order given: with a
    non-empty gateway, constructing with [os1 ++ os2] is constructing with
    [os1] and applying [os2] to the result, so an option that fails ends the
    construction with its error and the options after it are not applied;
    of two [withLimit] or two [withUserAgent] options the later one wins. *)
Theorem newFetcher_options_in_order (gw : string) (os1 os2 : list fetcherOption) :
  newFetcher gw (os1 ++ os2) =
    match newFetcher gw os1 with
    | Ok f => applyOptions f os2
    | Err err => Err err
    end /\
  (forall l1 l2 f, newFetcher gw (os1 ++ [withLimit l1; withLimit l2]) = Ok f ->
     limit f = l2) /\
  (forall u1 u2 f, newFetcher gw (os1 ++ [withUserAgent u1; withUserAgent u2]) = Ok f ->
     userAgent f = u2) /\
  (forall bad err f, (forall g, snd (bad g) = Some err) ->
     newFetcher gw os1 = Ok f ->
     newFetcher gw (os1 ++ bad :: os2) = Err err).
Proof.
  assert (Happ : forall os, newFetcher gw (os1 ++ os) =
            match newFetcher gw os1 with
            | Ok f => applyOptions f os
            | Err err => Err err
            end).
  { intros os. unfold newFetcher.
    destruct (String.eqb gw EmptyString); [done|apply applyOptions_app]. }
  split_and!.
  - apply Happ.
  - intros l1 l2 f. rewrite Happ. destruct (newFetcher gw os1); [|discriminate].
    by intros [= <-].
  - intros u1 u2 f. rewrite Happ. destruct (newFetcher gw os1); [|discriminate].
    by intros [= <-].
  - intros bad err f Hbad Hf. rewrite Happ, Hf. cbn [applyOptions].
    specialize (Hbad f). by destruct (bad f) as [g [e|]]; simpl in Hbad; simplify_eq.
Qed.

Lemma newFetcher_options_in_order_witness :
  newFetcher "https://gw.example"
    ([withLimit 1] ++ (fun f => (f, Some (errorString "refused"))) :: [withLimit 9])
  = Err (errorString "refused").
Proof.
  apply (proj2 (proj2 (proj2
           (newFetcher_options_in_order "https://gw.example" [withLimit 1] [withLimit 9])))
           (fun f => (f, Some (errorString "refused"))) (errorString "refused")
           {| gateway := "https://gw.example"; limit := 1; userAgent := EmptyString |}).
  - reflexivity.
  - reflexivity.
Defined.

Section Ingestion.
Variable E : Env.

(** A block that [Next] returns matches its CID. *)
Lemma Next_returns_verified (car : BlockReader) (blk : Block) :
  fst (fst (Next (hash E) (debug E) (Cid_String E) car)) = Some blk ->
  matchesDigest (hash E) (Block_Cid blk) (RawData blk).
Proof.
  unfold Next. destruct car as [[|[c data|] rest] flt]; cbn [pending]; try discriminate.
  destruct (Sum (hash E) (Cid_Prefix c) data) as [hashed|] eqn:Hsum; [|discriminate].
  unfold Equals. case_bool_decide as Heq; cbn [negb]; [|discriminate]. subst hashed.
  apply Sum_matches in Hsum. rewrite (NewBlockWithCid_matches _ _ _ _ Hsum).
  by intros [= <-].
Qed.

(** [Put] keeps what the store holds and adds the block under a new key. *)
Lemma Put_lookup (bs : gmap Cid bytes) (b : Block) (k : Cid) :
  snd (blockstore.Put bs b) !! k =
  match bs !! k with
  | Some d => Some d
  | None => if decide (Block_Cid b = k) then Some (RawData b) else None
  end.
Proof.
  unfold blockstore.Put. destruct (bs !! Block_Cid b) as [d0|] eqn:Hb; cbn [snd].
  - destruct (bs !! k) as [d|] eqn:Hk; [done|].
    destruct (decide (Block_Cid b = k)) as [<-|]; [congruence|done].
  - destruct (decide (Block_Cid b = k)) as [<-|Hne].
    + by rewrite lookup_insert_eq, Hb.
    + rewrite lookup_insert_ne by done. by destruct (bs !! k).
Qed.

Lemma Put_no_error (bs : gmap Cid bytes) (b : Block) :
  blockstore.Put bs b = (None, snd (blockstore.Put bs b)).
Proof. unfold blockstore.Put. by destruct (bs !! Block_Cid b). Qed.

(** The loop keeps a store of matching blocks a store of matching blocks. *)
Lemma addBlocks_verified (fuel : nat) : forall (car car' : BlockReader)
    (bs bs' : gmap Cid bytes) (err : option error),
  (forall c d, bs !! c = Some d -> matchesDigest (hash E) c d) ->
  addBlocks E fuel car bs = Some (err, car', bs') ->
  forall c d, bs' !! c = Some d -> matchesDigest (hash E) c d.
Proof.
  induction fuel as [|fuel IH]; intros car car' bs bs' err Hbs; [discriminate|].
  cbn [addBlocks].
  destruct (Next (hash E) (debug E) (Cid_String E) car) as [[block e] car1] eqn:HN.
  case_bool_decide; [by intros [= _ _ <-]|].
  destruct block as [block|]; [|by intros [= _ _ <-]].
  rewrite Put_no_error. apply IH.
  intros c d. rewrite Put_lookup.
  destruct (bs !! c) as [d0|] eqn:Hc; [intros [= <-]; by apply Hbs|].
  destruct (decide (Block_Cid block = c)) as [<-|]; [|discriminate].
  intros [= <-]. apply (Next_returns_verified car). by rewrite HN.
Qed.

(** Over frames that all verify the loop puts one block after the other. *)
Lemma addBlocks_good (good : list Frame) : forall (rest : list Frame)
    (flt : option error) (fuel : nat) (bs : gmap Cid bytes),
  Forall (verifiedFrame (hash E)) good ->
  addBlocks E (length good + fuel) (mkBlockReader (good ++ rest) flt) bs
  = addBlocks E fuel (mkBlockReader rest flt) (putAll bs (omap frameBlock good)).
Proof.
  induction good as [|fr good IH]; intros rest flt fuel bs Hgood; [done|].
  apply Forall_cons in Hgood as [Hfr Hgood].
  destruct fr as [c data|]; [|done]. cbn [verifiedFrame] in Hfr.
  cbn [length Nat.add app addBlocks].
  rewrite (fetcher_facts.Next_verified E c data _ flt Hfr).
  rewrite bool_decide_eq_false_2 by (intros [? _]; done).
  rewrite Put_no_error. rewrite IH by done. reflexivity.
Qed.

(** What [putAll] stores: a key is in the store afterwards exactly when it
    was there before or is the CID of one of the blocks, and what was there
    before stays. *)
Lemma putAll_lookup (blks : list Block) : forall (bs : gmap Cid bytes) (k : Cid),
  (forall d, bs !! k = Some d -> putAll bs blks !! k = Some d) /\
  (forall d, putAll bs blks !! k = Some d ->
     bs !! k = Some d \/ blocks.mkBlock k d ∈ blks) /\
  (forall b, b ∈ blks -> Block_Cid b = k -> is_Some (putAll bs blks !! k)).
Proof.
  induction blks as [|b blks IH]; intros bs k.
  - split_and!; [done|by left|]. intros b Hb. by apply elem_of_nil in Hb.
  - change (putAll bs (b :: blks)) with (putAll (snd (blockstore.Put bs b)) blks).
    destruct (IH (snd (blockstore.Put bs b)) k) as (Hkeep & Hfrom & Hin).
    split_and!.
    + intros d Hd. apply Hkeep. rewrite Put_lookup. by rewrite Hd.
    + intros d Hd. destruct (Hfrom d Hd) as [Hput|Hblk]; [|right; by right].
      rewrite Put_lookup in Hput. destruct (bs !! k) as [d0|]; [by left|].
      destruct (decide (Block_Cid b = k)) as [<-|]; [|discriminate].
      injection Hput as <-. right. destruct b. by left.
    + intros b' [->|Hb']%elem_of_cons Hk; [|by eapply Hin].
      assert (Hsome : is_Some (snd (blockstore.Put bs b) !! k)).
      { rewrite Put_lookup. destruct (bs !! k); [by eexists|].
        rewrite decide_True by done. by eexists. }
      destruct Hsome as [d Hd]. exists d. by apply Hkeep.
Qed.

End Ingestion.

(** X10. Whatever the archive holds and however ingestion ends, the store it
    has filled maps a CID only to bytes that match it. *)
Theorem ingest_store_verified (E : Env) (r : ReadCloser) (err : option error)
    (car : BlockReader) (bs : gmap Cid bytes) :
  ingest E r = Some (err, car, bs) ->
  forall c d, bs !! c = Some d -> matchesDigest (hash E) c d.
Proof.
  unfold ingest. destruct (NewBlockReader E r) as [car0|].
  - apply addBlocks_verified. intros c d. by rewrite lookup_empty.
  - intros [= _ _ <-] c d. by rewrite lookup_empty.
Qed.

Lemma ingest_store_verified_witness :
  match ingest examples.badArchive (mkBody "archive" None) with
  | Some (_, _, bs) =>
      forall c d, bs !! c = Some d -> matchesDigest examples.identityHash c d
  | None => True
  end.
Proof.
  destruct (ingest examples.badArchive (mkBody "archive" None))
    as [[[err car] bs]|] eqn:Hing; [|exact I].
  exact (ingest_store_verified examples.badArchive (mkBody "archive" None)
           err car bs Hing).
Defined.

(** X11. When every frame of the archive matches its CID and the stream ends
    cleanly, ingestion reads the whole archive and returns no error; the
    store then holds a block under the CID of every frame and nothing that
    is not a frame of the archive, and [carToFileStream] returns what the
    walk to the file finds in that store. *)
Theorem ingest_whole_archive (E : Env) (r : ReadCloser) (frames : list Frame) :
  decodeCar E (content r) = Ok frames ->
  Forall (verifiedFrame (hash E)) frames ->
  readFault r = None \/ readFault r = Some EOF ->
  ingest E r = Some (None, mkBlockReader [] (readFault r),
                     putAll ∅ (omap frameBlock frames)) /\
  (forall c d, Framed c d ∈ frames ->
     is_Some (putAll ∅ (omap frameBlock frames) !! c)) /\
  (forall c d, putAll ∅ (omap frameBlock frames) !! c = Some d ->
     Framed c d ∈ frames) /\
  (forall imPath, carToFileStream E r imPath
                  = Some (openFile E (putAll ∅ (omap frameBlock frames)) imPath)).
Proof.
  intros Hdec Hgood Hclean.
  assert (Hing : ingest E r = Some (None, mkBlockReader [] (readFault r),
                                    putAll ∅ (omap frameBlock frames))).
  { unfold ingest, NewBlockReader. rewrite Hdec. cbn [pending].
    rewrite <- Nat.add_1_r.
    rewrite <- (app_nil_r frames) at 2.
    rewrite (addBlocks_good E frames [] (readFault r) 1 ∅ Hgood).
    cbn [addBlocks Next pending fault].
    rewrite bool_decide_eq_false_2; [done|].
    intros [_ Hne]. destruct Hclean as [Hc|Hc]; rewrite Hc in Hne; by apply Hne. }
  split_and!.
  - exact Hing.
  - intros c d Hin.
    apply (proj2 (proj2 (putAll_lookup _ ∅ c)) (blocks.mkBlock c d)); [|done].
    apply list_elem_of_omap. by exists (Framed c d).
  - intros c d Hd.
    destruct (proj1 (proj2 (putAll_lookup _ ∅ c)) d Hd) as [Hemp|Hin].
    + by rewrite lookup_empty in Hemp.
    + apply list_elem_of_omap in Hin as (fr & Hfr & Hblk).
      destruct fr as [c' d'|]; [|discriminate]. by injection Hblk as -> ->.
  - intros imPath. unfold carToFileStream. by rewrite Hing.
Qed.

Lemma ingest_whole_archive_witness :
  (forall c d, Framed c d ∈ [Framed (examples.cidOf "A") "A"; Framed (examples.cidOf "B") "B"] ->
     is_Some (putAll ∅ (omap frameBlock
                [Framed (examples.cidOf "A") "A"; Framed (examples.cidOf "B") "B"]) !! c)) /\
  ingest examples.goodArchive (mkBody "archive" None)
  = Some (None, mkBlockReader [] None,
          putAll ∅ (omap frameBlock
            [Framed (examples.cidOf "A") "A"; Framed (examples.cidOf "B") "B"])).
Proof.
  destruct (ingest_whole_archive examples.goodArchive (mkBody "archive" None)
              [Framed (examples.cidOf "A") "A"; Framed (examples.cidOf "B") "B"])
    as (Hing & Hin & _).
  - reflexivity.
  - constructor; [reflexivity|]. constructor; [reflexivity|constructor].
  - by left.
  - split; [exact Hin|exact Hing].
Defined.

(** X12. Ingestion stops at the first frame that is malformed or does not
    match its CID: the blocks of the frames before it are in the store, the
    frames after it are left unread, and [carToFileStream] returns the
    error. *)
Theorem ingest_stops_at_first_bad_frame (E : Env) (r : ReadCloser)
    (good : list Frame) (bad : Frame) (rest : list Frame) :
  decodeCar E (content r) = Ok (good ++ bad :: rest)%list ->
  Forall (verifiedFrame (hash E)) good ->
  ~ verifiedFrame (hash E) bad ->
  exists err,
    ingest E r = Some (Some err, mkBlockReader rest (readFault r),
                       putAll ∅ (omap frameBlock good)) /\
    forall imPath, carToFileStream E r imPath = Some (Err err).
Proof.
  intros Hdec Hgood Hbad.
  assert (Hnext : exists e, e <> EOF /\
            Next (hash E) (debug E) (Cid_String E)
                 (mkBlockReader (bad :: rest) (readFault r))
            = ((None, Some e), mkBlockReader rest (readFault r))).
  { destruct bad as [c data|].
    - by apply fetcher_facts.Next_rejected.
    - exists ArchiveCorrupt. split; [discriminate|reflexivity]. }
  destruct Hnext as (e & HeEOF & Hnext).
  exists (Errorf_s "error reading block from car: " e).
  assert (Hing : ingest E r
                 = Some (Some (Errorf_s "error reading block from car: " e),
                         mkBlockReader rest (readFault r),
                         putAll ∅ (omap frameBlock good))).
  { unfold ingest, NewBlockReader. rewrite Hdec. cbn [pending].
    rewrite length_app. cbn [length].
    replace (S (length good + S (length rest)))
      with (length good + S (S (length rest))) by lia.
    rewrite (addBlocks_good E good (bad :: rest) (readFault r) _ ∅ Hgood).
    cbn [addBlocks]. rewrite Hnext.
    rewrite bool_decide_eq_true_2; [reflexivity|].
    split; [discriminate|congruence]. }
  split; [exact Hing|].
  intros imPath. unfold carToFileStream. by rewrite Hing.
Qed.

Lemma ingest_stops_at_first_bad_frame_witness :
  exists err,
    ingest examples.badArchive (mkBody "archive" None)
    = Some (Some err, mkBlockReader [Framed (examples.cidOf "C") "C"] None,
            putAll ∅ (omap frameBlock [Framed (examples.cidOf "A") "A"])).
Proof.
  destruct (ingest_stops_at_first_bad_frame examples.badArchive (mkBody "archive" None)
              [Framed (examples.cidOf "A") "A"]
              (Framed (examples.cidOf "B") "forged")
              [Framed (examples.cidOf "C") "C"])
    as (err & Hing & _).
  - reflexivity.
  - constructor; [reflexivity|constructor].
  - vm_compute. discriminate.
  - by exists err.
Defined.

(** [fetch] leaves every file but the output file as it was, and returns
    without an error only after writing the output file. *)
Lemma fetch_files (E : Env) (f : fetcher) (fuel : nat) (p : Path)
    (output : string) (fs fs' : gmap string bytes) (err : option error) :
  fetch E f fuel p output fs = Some (err, fs') ->
  (forall name, name <> output -> fs' !! name = fs !! name) /\
  (err = None -> is_Some (fs' !! output)).
Proof.
  unfold fetch, Copy.
  repeat (match goal with
          | |- context [match ?x with _ => _ end] => destruct x
          end; try discriminate; try (by intros [= <- <-])).
  intros [= <- <-]. split.
  - intros name Hne. by rewrite !lookup_insert_ne.
  - intros _. rewrite lookup_insert_eq. by eexists.
Qed.




(** X15. [run] fails with the files untouched when the path does not parse
    or the gateway is empty, in that order; whenever it returns, every file
    other than the output file is as it was, and when it returns without an
    error the output file has been written. *)
Theorem run_writes_output_only (E : Env) (fuel : nat)
    (gatewayURL ipfsPath output userAgent : string) (limit : Z)
    (fs : gmap string bytes) :
  (forall err, NewPath E ipfsPath = Err err ->
     run E fuel gatewayURL ipfsPath output userAgent limit fs = Some (Some err, fs)) /\
  (forall p, NewPath E ipfsPath = Ok p -> gatewayURL = EmptyString ->
     run E fuel gatewayURL ipfsPath output userAgent limit fs
     = Some (Some (errorString "a gateway must be set"), fs)) /\
  (forall err fs',
     run E fuel gatewayURL ipfsPath output userAgent limit fs = Some (err, fs') ->
     (forall name, name <> output -> fs' !! name = fs !! name) /\
     (err = None -> is_Some (fs' !! output))).
Proof.
  unfold run. split_and!.
  - by intros err ->.
  - by intros p -> ->.
  - intros err fs'. destruct (NewPath E ipfsPath) as [p|e].
    2:{ by intros [= <- <-]. }
    destruct (newFetcher gatewayURL _) as [f|e].
    2:{ by intros [= <- <-]. }
    apply fetch_files.
Qed.

Lemma run_writes_output_only_witness :
  run examples.goodArchive 0 EmptyString "/ipfs/bA" "out" "curl" 0 ∅
  = Some (Some (errorString "a gateway must be set"), ∅).
Proof.
  apply (proj1 (proj2 (run_writes_output_only examples.goodArchive 0 EmptyString
                         "/ipfs/bA" "out" "curl" 0 ∅))
           (examples.blockPath "A")); reflexivity.
Defined.

End fetcher_more.

(* ===================================================================== *)
(** * More on subscriptions *)
(* ===================================================================== *)
Module notifications_more.
Import notifications.

Lemma publishedTo_nil_topics (es : list event) : publishedTo [] es = [].
Proof.
  induction es as [|e es IH]; [done|]. by destruct e; cbn [publishedTo].
Qed.

(** One event: the registration does not grow, and the blocks held afterwards
    are, in order, among those held before and the block published. *)
Lemma step_queue (T : list string) (s s1 : state) (e : event) :
  (forall t, t ∈ topics s -> t ∈ T) ->
  step s e = Some s1 ->
  (forall t, t ∈ topics s1 -> t ∈ topics s) /\
  queue s1 `sublist_of` (queue s ++ publishedTo T [e])%list.
Proof.
  intros HT Hstep.
  assert (Hretire : (forall t, t ∈ topics (retire s) -> t ∈ topics s) /\
                    queue (retire s) `sublist_of` (queue s ++ [])%list).
  { split; [intros t Ht; by apply elem_of_nil in Ht|].
    rewrite app_nil_r. unfold queue, inflight; cbn.
    apply sublist_app; [done|]. by apply sublist_inserts_l. }
  destruct e; simpl in Hstep; cbn [publishedTo].
  - (* Publish *)
    injection Hstep as <-. unfold Publish, Pub.
    repeat case_bool_decide; (split; [by cbn|]);
      first [ by apply sublist_inserts_r
            | by (unfold queue, inflight; cbn; rewrite !app_assoc)
            | exfalso; match goal with
                       | H : ~ (_ ∈ T) |- _ => apply H, HT; assumption
                       end ].
  - injection Hstep as <-. split; [by cbn|]. by rewrite app_nil_r.
  - injection Hstep as <-. split; [intros t Ht; by apply elem_of_nil in Ht|].
    by rewrite app_nil_r.
  - destruct (blocksCh s); [discriminate|]. injection Hstep as <-.
    split; [by cbn|]. by rewrite app_nil_r.
  - destruct (goroutine s) as [[|k rest]| |]; try discriminate.
    by injection Hstep as <-.
  - destruct (goroutine s) as [[|k rest]| |]; try discriminate;
      (destruct (ctxDone s); [|discriminate]); by injection Hstep as <-.
  - destruct (goroutine s) as [[|k rest]| |] eqn:Hg; try discriminate.
    destruct (valuesCh s) as [|b vs] eqn:Hvs.
    + destruct (valuesClosed s); [|discriminate]. by injection Hstep as <-.
    + injection Hstep as <-. split; [by cbn|].
      rewrite app_nil_r. unfold queue, inflight; cbn. by rewrite Hg, Hvs.
  - destruct (goroutine s) as [| rest b |] eqn:Hg; try discriminate.
    case_bool_decide; [|discriminate]. injection Hstep as <-. split; [by cbn|].
    rewrite app_nil_r. unfold queue, inflight; cbn. rewrite Hg.
    by rewrite <- !app_assoc.
Qed.

Lemma publishedTo_cons (T : list string) (e : event) (es : list event) :
  publishedTo T (e :: es) = (publishedTo T [e] ++ publishedTo T es)%list.
Proof.
  destruct e; cbn [publishedTo]; try done. by case_bool_decide.
Qed.

Lemma run_queue (T : list string) (es : list event) : forall (s s' : state),
  (forall t, t ∈ topics s -> t ∈ T) ->
  run s es = Some s' ->
  queue s' `sublist_of` (queue s ++ publishedTo T es)%list.
Proof.
  induction es as [|e es IH]; intros s s' HT Hrun; simpl in Hrun.
  - injection Hrun as <-. by rewrite app_nil_r.
  - destruct (step s e) as [s1|] eqn:Hstep; [|discriminate].
    destruct (step_queue T s s1 e HT Hstep) as [Htop Hq].
    rewrite publishedTo_cons, app_assoc.
    etrans; [apply (IH s1 s'); [|done]|].
    + intros t Ht. by apply HT, Htop.
    + by apply sublist_app.
Qed.

(** What the caller has not read yet is the end of what was delivered. *)
Lemma run_unread (es : list event) : forall (s s' : state),
  (exists read, delivered s = (read ++ blocksCh s)%list) ->
  run s es = Some s' ->
  exists read, delivered s' = (read ++ blocksCh s')%list.
Proof.
  induction es as [|e es IH]; intros s s' [read Hread] Hrun; simpl in Hrun.
  - injection Hrun as <-. by exists read.
  - destruct (step s e) as [s1|] eqn:Hstep; [|discriminate].
    apply (IH s1 s'); [|done]. clear IH Hrun.
    destruct e; simpl in Hstep.
    + injection Hstep as <-. unfold Publish, Pub.
      repeat case_bool_decide; by exists read.
    + injection Hstep as <-. by exists read.
    + injection Hstep as <-. by exists read.
    + destruct (blocksCh s) as [|b bs] eqn:Hbs; [discriminate|].
      injection Hstep as <-. exists (read ++ [b])%list. cbn.
      by rewrite Hread, <- app_assoc.
    + destruct (goroutine s) as [[|k rest]| |]; try discriminate.
      injection Hstep as <-. by exists read.
    + destruct (goroutine s) as [[|k rest]| |]; try discriminate;
        (destruct (ctxDone s); [|discriminate]); injection Hstep as <-;
        by exists read.
    + destruct (goroutine s) as [[|k rest]| |]; try discriminate.
      destruct (valuesCh s) as [|b vs].
      * destruct (valuesClosed s); [|discriminate]. injection Hstep as <-.
        by exists read.
      * injection Hstep as <-. by exists read.
    + destruct (goroutine s) as [| rest b |]; try discriminate.
      case_bool_decide; [|discriminate]. injection Hstep as <-.
      exists read. cbn. by rewrite Hread, app_assoc.
Qed.

(** X16. A subscription delivers blocks in the order in which they were
    published: what it has delivered is a subsequence of the blocks
    published under its keys since it was created, and what its caller has
    still to read from the channel is the end of that sequence. *)
Theorem delivered_in_publication_order (keys : list Key) (es : list event)
    (s : state) :
  run (Subscribe keys) es = Some s ->
  delivered s `sublist_of` publishedTo keys es /\
  exists read, delivered s = (read ++ blocksCh s)%list.
Proof.
  intros Hrun. split.
  - etrans; [|apply (run_queue keys es (Subscribe keys) s); [|done]].
    + unfold queue. by apply sublist_inserts_r.
    + intros t. cbn. by rewrite notifications_facts.toStrings_keys.
  - apply (run_unread es (Subscribe keys) s); [|done]. by exists [].
Qed.

Lemma delivered_in_publication_order_witness :
  exists s,
    run (Subscribe ["k1"; "k2"])
        [EvPublish examples.blockK1; GoReceive; GoSend; EvRead] = Some s /\
    delivered s `sublist_of` [examples.blockK1].
Proof.
  eexists. split; [reflexivity|].
  apply (delivered_in_publication_order ["k1"; "k2"]
           [EvPublish examples.blockK1; GoReceive; GoSend; EvRead]).
  reflexivity.
Defined.

(** X17. Once the bus has shut down, nothing published afterwards reaches the
    subscription: whatever happens next, the blocks it delivers are, in
    order, among those it had delivered or held at the shutdown. *)
Theorem nothing_new_after_Shutdown (s s' : state) (es : list event) :
  run (Shutdown s) es = Some s' ->
  delivered s' `sublist_of` queue s /\
  topics s' = [].
Proof.
  intros Hrun. split.
  - etrans; [|etrans; [apply (run_queue [] es (Shutdown s) s'); [done|done]|]].
    + unfold queue. by apply sublist_inserts_r.
    + by rewrite publishedTo_nil_topics, app_nil_r.
  - revert Hrun. generalize (eq_refl : topics (Shutdown s) = []).
    generalize (Shutdown s). clear s. revert s'.
    induction es as [|e es IH]; intros s' s Htop Hrun; simpl in Hrun.
    + by injection Hrun as <-.
    + destruct (step s e) as [s1|] eqn:Hstep; [|discriminate].
      apply (IH s' s1); [|done].
      destruct (step_queue [] s s1 e) as [Hsub _]; [by rewrite Htop|done|].
      destruct (topics s1) as [|t ts]; [done|].
      specialize (Hsub t ltac:(by left)). rewrite Htop in Hsub.
      by apply elem_of_nil in Hsub.
Qed.

Lemma nothing_new_after_Shutdown_witness :
  exists s',
    run (Shutdown (Subscribe ["k1"; "k2"]))
        [EvPublish examples.blockK1; GoReceive] = Some s' /\
    delivered s' `sublist_of` queue (Subscribe ["k1"; "k2"]).
Proof.
  eexists. split; [reflexivity|].
  apply (nothing_new_after_Shutdown (Subscribe ["k1"; "k2"]) _
           [EvPublish examples.blockK1; GoReceive]).
  reflexivity.
Defined.

End notifications_more.

(* ===================================================================== *)
(** * Properties of ReaderFile *)
(* ===================================================================== *)
Module files_facts.
Import files.

Lemma invoke_keeps {R : Type} (E : Env) (io : Reader R) (f : ReaderFile R) (m : call) :
  abspath (invoke E io f m) = abspath f /\ stat (invoke E io f m) = stat f.
Proof.
  destruct m; cbn [invoke]; try done.
  - unfold Read. by destruct (ReadOf io (reader f) n).
  - unfold Close. by destruct (CloseOf io (reader f)).
  - unfold Seek. destruct (SeekOf io) as [seek|]; [|done].
    by destruct (seek (reader f) offset whence).
Qed.

(** X18. However a [ReaderFile] is read, sought and closed, it stays the
    file it was made as: it never is a directory, [NextFile] fails with
    [ErrNotDirectory] and gives no file, and its path, its [Stat] and the
    result of [Size] never change. *)
Theorem ReaderFile_stays_a_file {R : Type} (E : Env) (io : Reader R)
    (ms : list call) (f : ReaderFile R) :
  IsDirectory (invokeAll E io f ms) = false /\
  NextFile E (invokeAll E io f ms) = (EmptyString, None, Some (ErrNotDirectory E)) /\
  AbsPath (invokeAll E io f ms) = AbsPath f /\
  Stat (invokeAll E io f ms) = Stat f /\
  Size (invokeAll E io f ms) = Size f.
Proof.
  assert (Hkeep : abspath (invokeAll E io f ms) = abspath f /\
                  stat (invokeAll E io f ms) = stat f).
  { revert f. induction ms as [|m ms IH]; intros f; [done|].
    unfold invokeAll in *. cbn [foldl].
    destruct (IH (invoke E io f m)) as [-> ->]. apply invoke_keeps. }
  destruct Hkeep as [Hpath Hstat].
  unfold AbsPath, Stat, Size. by rewrite Hpath, Hstat.
Qed.

End files_facts.
